(** * Qrypto cipher suite (qrypto/qryptocipher.h)

    A shallow embedding of [Qrypto::Cipher]: the algorithm and operation
    registries, the suite's four fields with their getters and setters, the
    canonical [Algorithm/Mode] name, the hex accessors, and the
    encrypt/decrypt envelope with its key-length validator.

    [QString] is modelled by [string] (code units below 256; the registry
    names are ASCII, so a case-insensitive match against them folds the
    letters A-Z only), [QByteArray] and [SequreBytes] by [list byte], and
    [uint] key lengths by [N]. *)

From Stdlib Require Import List String Ascii Strings.Byte NArith Bool Arith Lia.
Import ListNotations.

Local Open Scope string_scope.
Local Open Scope list_scope.
Local Open Scope nat_scope.

Definition QString := string.
Definition QStringList := list QString.
Definition QByteArray := list byte.
Definition SequreBytes := list byte.

(** ** Qt string helpers *)

(** Case folding of one code unit, as [Qt::CaseInsensitive] does it on the
    letters A-Z. *)
Definition foldCase (ch : ascii) : ascii :=
  let n := nat_of_ascii ch in
  if (65 <=? n) && (n <=? 90) then ascii_of_nat (n + 32) else ch.

(** [a.compare(b, Qt::CaseInsensitive) == 0] *)
Fixpoint caselessEq (a b : QString) : bool :=
  match a, b with
  | EmptyString, EmptyString => true
  | String x a', String y b' => Ascii.eqb (foldCase x) (foldCase y) && caselessEq a' b'
  | _, _ => false
  end.

(** [QStringList::contains(str, Qt::CaseInsensitive)] *)
Definition contains (names : QStringList) (str : QString) : bool :=
  existsb (fun name => caselessEq name str) names.

(** [QString::split(sep)] with the default [KeepEmptyParts]: the empty
    string splits into one empty segment. *)
Fixpoint split (sep : ascii) (s : QString) : QStringList :=
  match s with
  | EmptyString => [EmptyString]
  | String ch rest =>
      if Ascii.eqb ch sep then EmptyString :: split sep rest
      else match split sep rest with
           | seg :: segs => String ch seg :: segs
           | [] => [String ch EmptyString]
           end
  end.

(** Number of occurrences of [sep] in [s]. *)
Fixpoint countChar (sep : ascii) (s : QString) : nat :=
  match s with
  | EmptyString => 0
  | String ch rest => (if Ascii.eqb ch sep then 1 else 0) + countChar sep rest
  end.

(** ** Enumerations *)

Inductive Algorithm :=
  | AES | Blowfish | CAST_128 | Camellia | DES_EDE3 | IDEA | SEED | Serpent | Twofish
  | UnknownAlgorithm.

Inductive Operation :=
  | CBC | CFB | CTR | EAX | ECB | GCM | OFB
  | UnknownOperation.

(** The enumerators' integer values. *)
Definition Algorithm_index (a : Algorithm) : nat :=
  match a with
  | AES => 0 | Blowfish => 1 | CAST_128 => 2 | Camellia => 3 | DES_EDE3 => 4
  | IDEA => 5 | SEED => 6 | Serpent => 7 | Twofish => 8 | UnknownAlgorithm => 9
  end.

Definition Operation_index (o : Operation) : nat :=
  match o with
  | CBC => 0 | CFB => 1 | CTR => 2 | EAX => 3 | ECB => 4 | GCM => 5 | OFB => 6
  | UnknownOperation => 7
  end.

(** The casts [Algorithm(i)] and [Operation(i)]. *)
Definition Algorithm_of_index (i : nat) : Algorithm :=
  match i with
  | 0 => AES | 1 => Blowfish | 2 => CAST_128 | 3 => Camellia | 4 => DES_EDE3
  | 5 => IDEA | 6 => SEED | 7 => Serpent | 8 => Twofish | _ => UnknownAlgorithm
  end.

Definition Operation_of_index (i : nat) : Operation :=
  match i with
  | 0 => CBC | 1 => CFB | 2 => CTR | 3 => EAX | 4 => ECB | 5 => GCM | 6 => OFB
  | _ => UnknownOperation
  end.

(** ** Registry *)

(** Modelled from the spec: the static table [Cipher::AlgorithmNames] is
    declared in the header and initialised outside it; the names are those
    of the data model, in the order of the enumerators. *)
Definition AlgorithmNames : QStringList :=
  ["AES"; "Blowfish"; "CAST-128"; "Camellia"; "DES-EDE3"; "IDEA"; "SEED";
   "Serpent"; "Twofish"].

(** Modelled from the spec: the static table [Cipher::OperationCodes] is
    declared in the header and initialised outside it; the codes are those
    of the data model, in the order of the enumerators. *)
Definition OperationCodes : QStringList :=
  ["CBC"; "CFB"; "CTR"; "EAX"; "ECB"; "GCM"; "OFB"].

(** The loop [for (int i = names.size(); i-- > 0; ) if (names.at(i).compare
    (name, Qt::CaseInsensitive) == 0) return i;] started with [i] entries
    still to visit. *)
Fixpoint lookupName (names : QStringList) (name : QString) (i : nat) : option nat :=
  match i with
  | 0 => None
  | S j => if caselessEq (nth j names EmptyString) name then Some j
           else lookupName names name j
  end.

(** ** The suite *)

Record Cipher := mkCipher {
  m_algorithmName : QString;
  m_operationCode : QString;
  m_authentication : QByteArray;
  m_initialVector : QByteArray
}.

(** [Cipher(algorithm, operation)]: [QList::at] needs a valid index, so the
    [Unknown] enumerators have no suite. *)
Definition newCipher (algorithm : Algorithm) (operation : Operation) : option Cipher :=
  match nth_error AlgorithmNames (Algorithm_index algorithm),
        nth_error OperationCodes (Operation_index operation) with
  | Some a, Some o => Some (mkCipher a o [] [])
  | _, _ => None
  end.

Definition algorithm (c : Cipher) : Algorithm :=
  match lookupName AlgorithmNames (m_algorithmName c) (List.length AlgorithmNames) with
  | Some i => Algorithm_of_index i
  | None => UnknownAlgorithm
  end.

(** [m_algorithmName = AlgorithmNames.at(algorithm)]; out of range for
    [UnknownAlgorithm]. *)
Definition setAlgorithm (a : Algorithm) (c : Cipher) : option Cipher :=
  match nth_error AlgorithmNames (Algorithm_index a) with
  | Some name =>
      Some (mkCipher name (m_operationCode c) (m_authentication c) (m_initialVector c))
  | None => None
  end.

Definition algorithmName (c : Cipher) : QString := m_algorithmName c.

Definition setAlgorithmName (name : QString) (c : Cipher) : Cipher :=
  if contains AlgorithmNames name
  then mkCipher name (m_operationCode c) (m_authentication c) (m_initialVector c)
  else mkCipher EmptyString (m_operationCode c) (m_authentication c) (m_initialVector c).

Definition authentication (c : Cipher) : QByteArray := m_authentication c.

Definition setAuthentication (auth : QByteArray) (c : Cipher) : Cipher :=
  mkCipher (m_algorithmName c) (m_operationCode c) auth (m_initialVector c).

Definition initialVector (c : Cipher) : QByteArray := m_initialVector c.

Definition setInitialVector (iv : QByteArray) (c : Cipher) : Cipher :=
  mkCipher (m_algorithmName c) (m_operationCode c) (m_authentication c) iv.

Definition operation (c : Cipher) : Operation :=
  match lookupName OperationCodes (m_operationCode c) (List.length OperationCodes) with
  | Some i => Operation_of_index i
  | None => UnknownOperation
  end.

(** [m_operationCode = OperationCodes.at(operation)]; out of range for
    [UnknownOperation]. *)
Definition setOperation (o : Operation) (c : Cipher) : option Cipher :=
  match nth_error OperationCodes (Operation_index o) with
  | Some code =>
      Some (mkCipher (m_algorithmName c) code (m_authentication c) (m_initialVector c))
  | None => None
  end.

Definition operationCode (c : Cipher) : QString := m_operationCode c.

Definition setOperationCode (code : QString) (c : Cipher) : Cipher :=
  if contains OperationCodes code
  then mkCipher (m_algorithmName c) code (m_authentication c) (m_initialVector c)
  else mkCipher (m_algorithmName c) EmptyString (m_authentication c) (m_initialVector c).

(** [QString("%1/%2").arg(algorithmName(), operationCode())] *)
Definition fullName (c : Cipher) : QString :=
  (algorithmName c ++ "/" ++ operationCode c)%string.

(** Both names are cleared first.  The loop body runs when the split has
    exactly two segments and takes both of them out of the list, so the
    loop test fails on the second round: one conditional. *)
Definition setFullName (name : QString) (c : Cipher) : Cipher :=
  let cleared := mkCipher EmptyString EmptyString (m_authentication c) (m_initialVector c) in
  let names := split "/" name in
  if Nat.eqb (List.length names) 2 then
    let c1 := setAlgorithmName (hd EmptyString names) cleared in   (* takeFirst *)
    let rest := tl names in
    setOperationCode (last rest EmptyString) c1                    (* takeLast *)
  else cleared.

(** ** Hex accessors *)

(** [QString::toLatin1] on code units below 256. *)
Definition toLatin1 (s : QString) : QByteArray := list_byte_of_string s.

(** [QtMiscUtils::fromHex]: the value of a hex digit, [None] for [-1]. *)
Definition hexDigit (ch : byte) : option N :=
  let n := Byte.to_N ch in
  if (48 <=? n)%N && (n <=? 57)%N then Some (n - 48)%N
  else if (65 <=? n)%N && (n <=? 70)%N then Some (n - 55)%N
  else if (97 <=? n)%N && (n <=? 102)%N then Some (n - 87)%N
  else None.

Definition byteOfN (n : N) : byte :=
  match Byte.of_N n with
  | Some b => b
  | None => x00
  end.

(** The loop of [QByteArray::fromHex]: the input is read from its last
    character to its first ([chars] is the input reversed), a character that
    is no hex digit is skipped, a first digit opens a new byte in front of
    [result] and the next one is or-ed into its high half. *)
Fixpoint fromHex_loop (chars : list byte) (odd_digit : bool) (result : QByteArray)
  : QByteArray :=
  match chars with
  | [] => result
  | ch :: rest =>
      match hexDigit ch with
      | None => fromHex_loop rest odd_digit result
      | Some tmp =>
          if odd_digit then fromHex_loop rest false (byteOfN tmp :: result)
          else match result with
               | b :: bs =>
                   fromHex_loop rest true
                     (byteOfN (N.lor (Byte.to_N b) (N.shiftl tmp 4)) :: bs)
               | [] => fromHex_loop rest true result
               end
      end
  end.

(** [QByteArray::fromHex]: the bytes written, the unused front of the
    buffer removed. *)
Definition fromHex (hexEncoded : QByteArray) : QByteArray :=
  fromHex_loop (rev hexEncoded) true [].

(** Number of hex digits of a byte string. *)
Definition countHex (bs : QByteArray) : nat :=
  List.length (filter (fun ch => match hexDigit ch with Some _ => true | None => false end) bs).

(** [setAuthentication(const QString &authenticationHex)] *)
Definition setAuthenticationHex (authenticationHex : QString) (c : Cipher) : Cipher :=
  setAuthentication (fromHex (toLatin1 authenticationHex)) c.

(** [setInitialVector(const QString &initialVectorHex)] *)
Definition setInitialVectorHex (initialVectorHex : QString) (c : Cipher) : Cipher :=
  setInitialVector (fromHex (toLatin1 initialVectorHex)) c.

(** ** Byte strings *)

Fixpoint sameBytes (a b : QByteArray) : bool :=
  match a, b with
  | [], [] => true
  | x :: a', y :: b' => Byte.eqb x y && sameBytes a' b'
  | _, _ => false
  end.

(** Bit [k] of a byte inverted. *)
Definition flipByte (k : nat) (b : byte) : byte :=
  byteOfN (N.lxor (Byte.to_N b) (N.shiftl 1 (N.of_nat k))).

(** Bit [i] of a byte string inverted (bit [i mod 8] of byte [i / 8]);
    unchanged when [i] is past the end. *)
Fixpoint flipBit (i : nat) (bs : QByteArray) : QByteArray :=
  match bs with
  | [] => []
  | b :: rest => if i <? 8 then flipByte i b :: rest else b :: flipBit (i - 8) rest
  end.

(** ** Key-length validator *)

(** Modelled from the spec: [validateKeyLength] is declared in the header
    and defined outside it.  An algorithm's valid key lengths are a fixed
    length, a discrete set or a range, in bytes. *)
Inductive KeyLengths :=
  | FixedLength (n : N)
  | DiscreteLengths (ls : list N)
  | LengthRange (lo hi : N).

Definition accepts (k : KeyLengths) (n : N) : bool :=
  match k with
  | FixedLength m => N.eqb n m
  | DiscreteLengths ls => existsb (N.eqb n) ls
  | LengthRange lo hi => (lo <=? n)%N && (n <=? hi)%N
  end.

Definition wellFormed (k : KeyLengths) : bool :=
  match k with
  | FixedLength _ => true
  | DiscreteLengths ls => negb (Nat.eqb (List.length ls) 0)
  | LengthRange lo hi => (lo <=? hi)%N
  end.

Definition distance (a b : N) : N := if (a <? b)%N then (b - a)%N else (a - b)%N.

(** The better of two permitted lengths for a request [x]: the closer one,
    the larger one on a tie. *)
Definition closer (x best cand : N) : N :=
  if (distance cand x <? distance best x)%N then cand
  else if (distance cand x =? distance best x)%N && (best <? cand)%N then cand
  else best.

(** [r] is at least as good an answer to the request [x] as [k]: closer,
    or as close and not smaller. *)
Definition better (x r k : N) : Prop :=
  (distance r x < distance k x)%N \/ (distance r x = distance k x /\ (k <= r)%N).

(** Modelled from the spec: the policy of [validateKeyLength] (a fixed
    length ignores the request, a discrete set gives the closest permitted
    value with ties toward the larger, a range clamps). *)
Definition nearest (k : KeyLengths) (x : N) : N :=
  match k with
  | FixedLength n => n
  | DiscreteLengths [] => 0%N
  | DiscreteLengths (l :: ls) => fold_left (closer x) ls l
  | LengthRange lo hi => if (x <? lo)%N then lo else if (hi <? x)%N then hi else x
  end.

(** ** Collaborators of the envelope *)

(** Modelled from the spec: [Error] is declared in qrypto.h, outside the
    header; the failure taxonomy of the envelope. *)
Inductive Error :=
  | NoError
  | ConfigurationError
  | KeyDerivationError
  | AuthenticationError
  | EncryptFailed
  | DecryptFailed.

(** Modelled from the spec: [KeyMaker] is declared in qryptokeymaker.h; it
    names a preferred key length and derives [n] bytes of key material, or
    fails. *)
Record KeyMaker := mkKeyMaker {
  preferredKeyLength : N;
  deriveKey : N -> option QByteArray
}.

(** What an authenticated primitive answers on decryption. *)
Inductive Opened :=
  | Plain (p : SequreBytes)
  | TagMismatch
  | OpenFailed.

(** Modelled from the spec: the primitives behind the suite (block ciphers
    in their modes, the authenticated modes, the message authentication
    code) with the key lengths and IV lengths they ask for. *)
Record Backend := mkBackend {
  keyLengths : Algorithm -> KeyLengths;
  ivLength : Algorithm -> Operation -> nat;
  cipherEncrypt : Algorithm -> Operation -> QByteArray -> QByteArray -> SequreBytes
                  -> option QByteArray;
  cipherDecrypt : Algorithm -> Operation -> QByteArray -> QByteArray -> QByteArray
                  -> option SequreBytes;
  aeadSeal : Algorithm -> Operation -> QByteArray -> QByteArray -> SequreBytes
             -> option (QByteArray * QByteArray);
  aeadOpen : Algorithm -> Operation -> QByteArray -> QByteArray -> QByteArray
             -> QByteArray -> Opened;
  mac : QByteArray -> QByteArray -> QByteArray -> QByteArray
}.

(** The random source, as the stream of bytes it is going to give. *)
Definition Rng := nat -> byte.

Definition drawBytes (n : nat) (rng : Rng) : QByteArray * Rng :=
  (map rng (seq 0 n), fun i => rng (n + i)).

(** Calls to the collaborators, in the order they are made. *)
Inductive Work :=
  | DeriveKey (n : N)
  | GenerateIV (n : nat)
  | RunCipher
  | RunAead
  | ComputeMac.

Record EncryptResult := mkEncryptResult {
  e_error : Error;
  e_suite : Cipher;
  e_crypt : QByteArray;
  e_rng : Rng;
  e_work : list Work
}.

Record DecryptResult := mkDecryptResult {
  d_error : Error;
  d_plain : SequreBytes;
  d_work : list Work
}.

(** ** The envelope *)

(** Modelled from the spec: [validateKeyLength], the nearest valid length
    for the configured algorithm. *)
Definition validateKeyLength (B : Backend) (c : Cipher) (keyLength : N) : N :=
  nearest (keyLengths B (algorithm c)) keyLength.

Definition isAead (o : Operation) : bool :=
  match o with
  | EAX | GCM => true
  | _ => false
  end.

Definition resolved (c : Cipher) : bool :=
  match algorithm c, operation c with
  | UnknownAlgorithm, _ => false
  | _, UnknownOperation => false
  | _, _ => true
  end.

(** IV bytes of an operation: none for ECB. *)
Definition requiredIvLength (B : Backend) (a : Algorithm) (o : Operation) : nat :=
  match o with
  | ECB => 0
  | _ => ivLength B a o
  end.

(** Modelled from the spec: [Cipher::encrypt] is declared in the header and
    defined outside it.  [crypt] is the content of the output buffer before
    the call; the plaintext is passed by const reference. *)
Definition encrypt (B : Backend) (c : Cipher) (crypt : QByteArray)
    (plain : SequreBytes) (keyMaker : KeyMaker) (rng : Rng) : EncryptResult :=
  if negb (resolved c) then mkEncryptResult ConfigurationError c crypt rng []
  else
    let a := algorithm c in
    let o := operation c in
    let keyLen := validateKeyLength B c (preferredKeyLength keyMaker) in
    match deriveKey keyMaker keyLen with
    | None => mkEncryptResult KeyDerivationError c crypt rng [DeriveKey keyLen]
    | Some key =>
        let n := requiredIvLength B a o in
        let (iv, rng') := drawBytes n rng in
        let c1 := setInitialVector iv c in
        if isAead o then
          match aeadSeal B a o key iv plain with
          | Some (out, tag) =>
              mkEncryptResult NoError (setAuthentication tag c1) out rng'
                [DeriveKey keyLen; GenerateIV n; RunAead]
          | None =>
              mkEncryptResult EncryptFailed c1 crypt rng'
                [DeriveKey keyLen; GenerateIV n; RunAead]
          end
        else
          match cipherEncrypt B a o key iv plain with
          | Some out =>
              mkEncryptResult NoError (setAuthentication (mac B key iv out) c1) out rng'
                [DeriveKey keyLen; GenerateIV n; RunCipher; ComputeMac]
          | None =>
              mkEncryptResult EncryptFailed c1 crypt rng'
                [DeriveKey keyLen; GenerateIV n; RunCipher]
          end
    end.

(** Modelled from the spec: [Cipher::decrypt] is declared in the header and
    defined outside it.  [plain] is the content of the output buffer before
    the call; the suite's IV and authentication value are read. *)
Definition decrypt (B : Backend) (c : Cipher) (plain : SequreBytes)
    (crypt : QByteArray) (keyMaker : KeyMaker) : DecryptResult :=
  if negb (resolved c) then mkDecryptResult ConfigurationError plain []
  else
    let a := algorithm c in
    let o := operation c in
    let keyLen := validateKeyLength B c (preferredKeyLength keyMaker) in
    match deriveKey keyMaker keyLen with
    | None => mkDecryptResult KeyDerivationError plain [DeriveKey keyLen]
    | Some key =>
        let iv := initialVector c in
        if isAead o then
          match aeadOpen B a o key iv crypt (authentication c) with
          | Plain p => mkDecryptResult NoError p [DeriveKey keyLen; RunAead]
          | TagMismatch => mkDecryptResult AuthenticationError plain [DeriveKey keyLen; RunAead]
          | OpenFailed => mkDecryptResult DecryptFailed plain [DeriveKey keyLen; RunAead]
          end
        else if sameBytes (mac B key iv crypt) (authentication c) then
          match cipherDecrypt B a o key iv crypt with
          | Some p => mkDecryptResult NoError p [DeriveKey keyLen; ComputeMac; RunCipher]
          | None => mkDecryptResult DecryptFailed plain [DeriveKey keyLen; ComputeMac; RunCipher]
          end
        else mkDecryptResult AuthenticationError plain [DeriveKey keyLen; ComputeMac]
    end.

(** ** A test backend

    A deterministic key maker, a counting random source and transparent
    primitives, to run the envelope on. *)

Definition testKeyMaker : KeyMaker :=
  mkKeyMaker 32%N (fun n => Some (repeat x2a (N.to_nat n))).

(** A key maker whose secret is unavailable. *)
Definition failingKeyMaker : KeyMaker := mkKeyMaker 32%N (fun _ => None).

Definition countingRng : Rng := fun i => byteOfN (N.of_nat (i mod 256)).

Definition testKeyLengths (a : Algorithm) : KeyLengths :=
  match a with
  | AES | Camellia | Serpent | Twofish => DiscreteLengths [16; 24; 32]%N
  | Blowfish => LengthRange 4 56
  | CAST_128 => LengthRange 5 16
  | DES_EDE3 => FixedLength 24
  | IDEA | SEED => FixedLength 16
  | UnknownAlgorithm => DiscreteLengths []
  end.

Definition testBackend : Backend :=
  mkBackend testKeyLengths
    (fun _ _ => 16)
    (fun _ _ _ _ p => Some (rev p))
    (fun _ _ _ _ out => Some (rev out))
    (fun _ _ key iv p => Some (rev p, key ++ iv ++ rev p))
    (fun _ _ key iv out tag =>
       if sameBytes tag (key ++ iv ++ out) then Plain (rev out) else TagMismatch)
    (fun key iv out => iv ++ out).

(** "hello world" *)
Definition helloWorld : SequreBytes :=
  [x68; x65; x6c; x6c; x6f; x20; x77; x6f; x72; x6c; x64].

(** ** Names held by a suite *)

(** A name field as the soft setters leave it: empty, or equal to a
    registry name up to case. *)
Definition nameOk (names : QStringList) (s : QString) : bool :=
  match s with
  | EmptyString => true
  | _ => contains names s
  end.

Definition wellNamed (c : Cipher) : bool :=
  nameOk AlgorithmNames (m_algorithmName c) && nameOk OperationCodes (m_operationCode c).

Definition isHexDigit (ch : byte) : bool :=
  match hexDigit ch with
  | Some _ => true
  | None => false
  end.

(** ** The random source over time *)




(** ** Hex digits, decoded by hand

    What the hex setters are to store, said without the loop: the values
    of the hex digits of the string in order, the other characters left
    out, taken two to a byte from the right. *)

Definition digitValues (bs : QByteArray) : list N :=
  flat_map (fun ch => match hexDigit ch with
                      | Some v => [v]
                      | None => []
                      end) bs.

(** Digits two to a byte, the first of each pair as the high half. *)
Fixpoint pairDigits (ds : list N) : QByteArray :=
  match ds with
  | hi :: lo :: rest => byteOfN (16 * hi + lo) :: pairDigits rest
  | _ => []
  end.

(** Digits two to a byte from the right: of an odd number of digits the
    first one is a byte of its own. *)
Definition decodeDigits (ds : list N) : QByteArray :=
  if Nat.even (List.length ds) then pairDigits ds
  else match ds with
       | d :: rest => byteOfN d :: pairDigits rest
       | [] => []
       end.

(** * Properties *)

(** ** Registry lookups *)

Section Lookup.

Variable names : QStringList.
Variable name : QString.

Lemma lookupName_some :
  forall n i, lookupName names name n = Some i ->
    i < n /\ caselessEq (nth i names EmptyString) name = true.
Proof.
  induction n as [|n IH]; simpl; intros i H; [discriminate|].
  destruct (caselessEq (nth n names EmptyString) name) eqn:E.
  - injection H as <-. split; [lia | exact E].
  - destruct (IH i H) as [Hlt Heq]. split; [lia | exact Heq].
Qed.

Lemma lookupName_none :
  forall n, lookupName names name n = None ->
    forall j, j < n -> caselessEq (nth j names EmptyString) name = false.
Proof.
  induction n as [|n IH]; simpl; intros H j Hj; [lia|].
  destruct (caselessEq (nth n names EmptyString) name) eqn:E; [discriminate|].
  destruct (Nat.eq_dec j n) as [->|Hne]; [exact E|].
  apply IH; [exact H | lia].
Qed.

Lemma contains_nth :
  contains names name = true ->
  exists j, j < List.length names /\ caselessEq (nth j names EmptyString) name = true.
Proof.
  unfold contains. intros H.
  apply existsb_exists in H. destruct H as [x [Hin Hx]].
  destruct (In_nth names x EmptyString Hin) as [j [Hj Hnth]].
  exists j. split; [exact Hj|]. rewrite Hnth. exact Hx.
Qed.

Lemma contains_lookupName :
  contains names name = true ->
  exists i, lookupName names name (List.length names) = Some i
            /\ i < List.length names
            /\ caselessEq (nth i names EmptyString) name = true.
Proof.
  intros H. destruct (contains_nth H) as [j [Hj Hc]].
  destruct (lookupName names name (List.length names)) as [i|] eqn:E.
  - exists i. destruct (lookupName_some _ _ E) as [Hlt Heq]. auto.
  - rewrite (lookupName_none _ E j Hj) in Hc. discriminate.
Qed.

Lemma not_contains_lookupName :
  contains names name = false ->
  lookupName names name (List.length names) = None.
Proof.
  intros H.
  destruct (lookupName names name (List.length names)) as [i|] eqn:E; [|reflexivity].
  destruct (lookupName_some _ _ E) as [Hlt Heq].
  assert (Hc : contains names name = true).
  { unfold contains. apply existsb_exists.
    exists (nth i names EmptyString). split; [apply nth_In; exact Hlt | exact Heq]. }
  rewrite Hc in H. discriminate.
Qed.

End Lookup.

Lemma Algorithm_of_index_known :
  forall i, i < List.length AlgorithmNames ->
    Algorithm_of_index i <> UnknownAlgorithm /\ Algorithm_index (Algorithm_of_index i) = i.
Proof.
  intros i Hi. simpl in Hi.
  do 9 (destruct i as [|i]; [split; [discriminate | reflexivity]|]).
  lia.
Qed.

Lemma Operation_of_index_known :
  forall i, i < List.length OperationCodes ->
    Operation_of_index i <> UnknownOperation /\ Operation_index (Operation_of_index i) = i.
Proof.
  intros i Hi. simpl in Hi.
  do 7 (destruct i as [|i]; [split; [discriminate | reflexivity]|]).
  lia.
Qed.

Lemma nth_error_nth_default :
  forall (l : QStringList) i, i < List.length l ->
    nth_error l i = Some (nth i l EmptyString).
Proof.
  induction l as [|x l IH]; simpl; intros i Hi; [lia|].
  destruct i as [|i]; simpl; [reflexivity|]. apply IH. lia.
Qed.

(** A recognized algorithm name resolves to a registry entry that equals
    it up to case. *)
Lemma recognized_algorithm :
  forall name c, contains AlgorithmNames name = true ->
    m_algorithmName c = name ->
    algorithm c <> UnknownAlgorithm /\
    exists canon, nth_error AlgorithmNames (Algorithm_index (algorithm c)) = Some canon
                  /\ caselessEq canon name = true.
Proof.
  intros name c H Hn. unfold algorithm. rewrite Hn.
  destruct (contains_lookupName _ _ H) as [i [-> [Hi Hc]]].
  destruct (Algorithm_of_index_known i Hi) as [Hk Hidx].
  split; [exact Hk|].
  exists (nth i AlgorithmNames EmptyString). rewrite Hidx.
  split; [apply nth_error_nth_default; exact Hi | exact Hc].
Qed.

Lemma recognized_operation :
  forall code c, contains OperationCodes code = true ->
    m_operationCode c = code ->
    operation c <> UnknownOperation /\
    exists canon, nth_error OperationCodes (Operation_index (operation c)) = Some canon
                  /\ caselessEq canon code = true.
Proof.
  intros code c H Hn. unfold operation. rewrite Hn.
  destruct (contains_lookupName _ _ H) as [i [-> [Hi Hc]]].
  destruct (Operation_of_index_known i Hi) as [Hk Hidx].
  split; [exact Hk|].
  exists (nth i OperationCodes EmptyString). rewrite Hidx.
  split; [apply nth_error_nth_default; exact Hi | exact Hc].
Qed.

Lemma empty_name_unknown :
  forall c, m_algorithmName c = EmptyString -> algorithm c = UnknownAlgorithm.
Proof. intros c H. unfold algorithm. rewrite H. reflexivity. Qed.

Lemma empty_code_unknown :
  forall c, m_operationCode c = EmptyString -> operation c = UnknownOperation.
Proof. intros c H. unfold operation. rewrite H. reflexivity. Qed.

(** ** Splitting a full name *)

Lemma split_length :
  forall sep s, List.length (split sep s) = S (countChar sep s).
Proof.
  intros sep s. induction s as [|ch rest IH]; simpl; [reflexivity|].
  destruct (Ascii.eqb ch sep); simpl.
  - rewrite IH. reflexivity.
  - destruct (split sep rest) as [|seg segs]; simpl in *; [discriminate | exact IH].
Qed.

Lemma split_one :
  forall sep s x, split sep s = [x] -> s = x.
Proof.
  intros sep s. induction s as [|ch rest IH]; simpl; intros x H.
  - injection H as <-. reflexivity.
  - destruct (Ascii.eqb ch sep).
    + pose proof (split_length sep rest) as L.
      injection H as _ H. rewrite H in L. discriminate.
    + pose proof (split_length sep rest) as L.
      destruct (split sep rest) as [|seg segs]; [discriminate L|].
      injection H as <- ->. rewrite (IH seg eq_refl). reflexivity.
Qed.

Lemma split_two :
  forall sep s a o, split sep s = [a; o] -> s = (a ++ String sep o)%string.
Proof.
  intros sep s. induction s as [|ch rest IH]; simpl; intros a o H; [discriminate|].
  destruct (Ascii.eqb ch sep) eqn:E.
  - apply Ascii.eqb_eq in E. subst ch.
    injection H as <- H. rewrite (split_one _ _ _ H). reflexivity.
  - pose proof (split_length sep rest) as L.
    destruct (split sep rest) as [|seg segs]; [discriminate L|].
    injection H as <- ->. rewrite (IH seg o eq_refl). reflexivity.
Qed.

(** ** Hex decoding *)

Lemma countHex_cons :
  forall ch rest,
    countHex (ch :: rest)
    = (match hexDigit ch with Some _ => 1 | None => 0 end) + countHex rest.
Proof.
  intros ch rest. unfold countHex. simpl. destruct (hexDigit ch); reflexivity.
Qed.

Lemma half_succ : forall n, (S n + 1) / 2 = S (n / 2).
Proof.
  intros n. replace (S n + 1) with (n + 1 * 2) by lia.
  rewrite Nat.div_add by discriminate. lia.
Qed.

Lemma fromHex_loop_length :
  forall chars odd_digit result,
    (odd_digit = false -> result <> []) ->
    List.length (fromHex_loop chars odd_digit result)
    = List.length result + (countHex chars + (if odd_digit then 1 else 0)) / 2.
Proof.
  induction chars as [|ch rest IH]; intros odd_digit result Hres.
  - destruct odd_digit; simpl; lia.
  - rewrite countHex_cons. simpl fromHex_loop.
    destruct (hexDigit ch) as [tmp|].
    + destruct odd_digit.
      * rewrite IH by (intros _; discriminate).
        simpl List.length. rewrite Nat.add_0_r.
        change (1 + countHex rest + 1) with (S (countHex rest) + 1).
        rewrite half_succ. lia.
      * destruct result as [|b bs]; [exfalso; apply Hres; reflexivity|].
        rewrite IH by (intros; discriminate).
        simpl List.length.
        replace (1 + countHex rest + 0) with (countHex rest + 1) by lia.
        reflexivity.
    + rewrite IH by exact Hres. reflexivity.
Qed.

Lemma countHex_rev : forall bs, countHex (rev bs) = countHex bs.
Proof.
  unfold countHex. induction bs as [|b bs IH]; simpl; [reflexivity|].
  rewrite filter_app, length_app, IH. simpl.
  destruct (hexDigit b); simpl; lia.
Qed.

Lemma fromHex_length :
  forall bs, List.length (fromHex bs) = (countHex bs + 1) / 2.
Proof.
  intros bs. unfold fromHex.
  rewrite fromHex_loop_length by discriminate.
  rewrite countHex_rev. reflexivity.
Qed.

Lemma fromHex_empty_iff :
  forall bs, fromHex bs = [] <-> countHex bs = 0.
Proof.
  intros bs. pose proof (fromHex_length bs) as L. split; intros H.
  - rewrite H in L.
    destruct (countHex bs) as [|n]; [reflexivity|].
    rewrite half_succ in L. discriminate L.
  - rewrite H in L.
    destruct (fromHex bs); [reflexivity | discriminate L].
Qed.

(** ** Suite configuration *)

(** C10: every single-field setter changes only its own field.
    [setAlgorithm] and [setAlgorithmName] leave the operation code, the
    initial vector and the authentication value as they were;
    [setOperation] and [setOperationCode] leave the algorithm name, the
    initial vector and the authentication value; [setInitialVector] (bytes
    or hex) leaves both names and the authentication value;
    [setAuthentication] (bytes or hex) leaves both names and the initial
    vector.  The enum setters have no result only for the [Unknown]
    enumerator, whose index is outside the name table. *)
Theorem setters_change_own_field_only :
  forall c : Cipher,
    (forall a, match setAlgorithm a c with
               | Some c' => operationCode c' = operationCode c
                            /\ initialVector c' = initialVector c
                            /\ authentication c' = authentication c
               | None => a = UnknownAlgorithm
               end)
    /\ (forall name, operationCode (setAlgorithmName name c) = operationCode c
                     /\ initialVector (setAlgorithmName name c) = initialVector c
                     /\ authentication (setAlgorithmName name c) = authentication c)
    /\ (forall o, match setOperation o c with
                  | Some c' => algorithmName c' = algorithmName c
                               /\ initialVector c' = initialVector c
                               /\ authentication c' = authentication c
                  | None => o = UnknownOperation
                  end)
    /\ (forall code, algorithmName (setOperationCode code c) = algorithmName c
                     /\ initialVector (setOperationCode code c) = initialVector c
                     /\ authentication (setOperationCode code c) = authentication c)
    /\ (forall iv, algorithmName (setInitialVector iv c) = algorithmName c
                   /\ operationCode (setInitialVector iv c) = operationCode c
                   /\ authentication (setInitialVector iv c) = authentication c)
    /\ (forall hex, algorithmName (setInitialVectorHex hex c) = algorithmName c
                    /\ operationCode (setInitialVectorHex hex c) = operationCode c
                    /\ authentication (setInitialVectorHex hex c) = authentication c)
    /\ (forall auth, algorithmName (setAuthentication auth c) = algorithmName c
                     /\ operationCode (setAuthentication auth c) = operationCode c
                     /\ initialVector (setAuthentication auth c) = initialVector c)
    /\ (forall hex, algorithmName (setAuthenticationHex hex c) = algorithmName c
                    /\ operationCode (setAuthenticationHex hex c) = operationCode c
                    /\ initialVector (setAuthenticationHex hex c) = initialVector c).
Proof.
  intros c. repeat split.
  - intros a. destruct a; simpl; auto.
  - unfold setAlgorithmName. destruct (contains AlgorithmNames name); reflexivity.
  - unfold setAlgorithmName. destruct (contains AlgorithmNames name); reflexivity.
  - unfold setAlgorithmName. destruct (contains AlgorithmNames name); reflexivity.
  - intros o. destruct o; simpl; auto.
  - unfold setOperationCode. destruct (contains OperationCodes code); reflexivity.
  - unfold setOperationCode. destruct (contains OperationCodes code); reflexivity.
  - unfold setOperationCode. destruct (contains OperationCodes code); reflexivity.
Qed.

(** C7, as the claim states it, fails: with a recognized algorithm name and
    an unrecognized operation code, [setFullName] keeps the algorithm name
    and clears the operation code only (and the other way round). *)
Lemma setFullName_keeps_recognized_half :
  contains OperationCodes "xyz" = false
  /\ algorithmName (setFullName "AES/xyz" (mkCipher "SEED" "CBC" [] [])) = "AES"
  /\ algorithmName (setFullName "AES/xyz" (mkCipher "SEED" "CBC" [] [])) <> EmptyString
  /\ contains AlgorithmNames "xyz" = false
  /\ operationCode (setFullName "xyz/GCM" (mkCipher "SEED" "CBC" [] [])) = "GCM".
Proof. repeat split. discriminate. Qed.

(** C7, amended: [setFullName] clears both names and, when the string
    holds exactly one [/] (two segments), applies the first segment through
    [setAlgorithmName] and the second through [setOperationCode], each on
    its own: a recognized half is stored as given, an unrecognized half
    stays empty.  With any other number of segments both names stay empty.
    The initial vector and the authentication value are not touched. *)
Theorem setFullName_applies_each_half :
  forall (name : QString) (c : Cipher),
    authentication (setFullName name c) = authentication c
    /\ initialVector (setFullName name c) = initialVector c
    /\ ((exists a o,
           name = (a ++ "/" ++ o)%string
           /\ countChar "/" name = 1
           /\ setFullName name c
              = setOperationCode o
                  (setAlgorithmName a
                     (mkCipher EmptyString EmptyString (m_authentication c) (m_initialVector c)))
           /\ algorithmName (setFullName name c)
              = (if contains AlgorithmNames a then a else EmptyString)
           /\ operationCode (setFullName name c)
              = (if contains OperationCodes o then o else EmptyString))
        \/ (countChar "/" name <> 1
            /\ algorithmName (setFullName name c) = EmptyString
            /\ operationCode (setFullName name c) = EmptyString)).
Proof.
  intros name c. unfold setFullName.
  pose proof (split_length "/" name) as L.
  destruct (Nat.eqb (List.length (split "/" name)) 2) eqn:E.
  - apply Nat.eqb_eq in E.
    destruct (split "/" name) as [|a [|o [|x rest]]] eqn:S; try discriminate E.
    simpl hd. simpl tl. simpl last.
    repeat split.
    + unfold setOperationCode, setAlgorithmName.
      destruct (contains OperationCodes o), (contains AlgorithmNames a); reflexivity.
    + unfold setOperationCode, setAlgorithmName.
      destruct (contains OperationCodes o), (contains AlgorithmNames a); reflexivity.
    + left. exists a, o. repeat split.
      * apply split_two. exact S.
      * simpl in L. lia.
      * unfold setOperationCode, setAlgorithmName.
        destruct (contains OperationCodes o), (contains AlgorithmNames a); reflexivity.
      * unfold setOperationCode, setAlgorithmName.
        destruct (contains OperationCodes o), (contains AlgorithmNames a); reflexivity.
  - apply Nat.eqb_neq in E. repeat split.
    right. repeat split. lia.
Qed.

(** C8, as the claim states it, fails: the string getters give back the
    spelling that was passed in, not the registry's. *)
Lemma setAlgorithmName_keeps_input_case :
  contains AlgorithmNames "aes" = true
  /\ contains OperationCodes "gcm" = true
  /\ algorithm (setAlgorithmName "aes" (mkCipher "SEED" "CBC" [] [])) = AES
  /\ nth_error AlgorithmNames (Algorithm_index AES) = Some "AES"
  /\ algorithmName (setAlgorithmName "aes" (mkCipher "SEED" "CBC" [] [])) = "aes"
  /\ algorithmName (setAlgorithmName "aes" (mkCipher "SEED" "CBC" [] [])) <> "AES"
  /\ operationCode (setOperationCode "gcm" (mkCipher "SEED" "CBC" [] [])) = "gcm"
  /\ fullName (setOperationCode "gcm" (setAlgorithmName "aes" (mkCipher "SEED" "CBC" [] [])))
     = "aes/gcm".
Proof. repeat split. discriminate. Qed.

(** C8, amended: the name setters accept a name that equals a registry
    name up to the case of its letters and store it as given, so
    [algorithmName], [operationCode] and [fullName] return the spelling of
    the input; the enum getters [algorithm] and [operation] resolve it to
    the registry entry whose canonical name equals it up to case. *)
Theorem name_setters_keep_given_spelling :
  forall (a o : QString) (c : Cipher),
    contains AlgorithmNames a = true ->
    contains OperationCodes o = true ->
    algorithmName (setAlgorithmName a c) = a
    /\ operationCode (setOperationCode o c) = o
    /\ fullName (setOperationCode o (setAlgorithmName a c)) = (a ++ "/" ++ o)%string
    /\ algorithm (setAlgorithmName a c) <> UnknownAlgorithm
    /\ (exists canon,
          nth_error AlgorithmNames (Algorithm_index (algorithm (setAlgorithmName a c)))
          = Some canon /\ caselessEq canon a = true)
    /\ operation (setOperationCode o c) <> UnknownOperation
    /\ (exists canon,
          nth_error OperationCodes (Operation_index (operation (setOperationCode o c)))
          = Some canon /\ caselessEq canon o = true).
Proof.
  intros a o c Ha Ho.
  assert (Na : m_algorithmName (setAlgorithmName a c) = a).
  { unfold setAlgorithmName. rewrite Ha. reflexivity. }
  assert (No : m_operationCode (setOperationCode o c) = o).
  { unfold setOperationCode. rewrite Ho. reflexivity. }
  destruct (recognized_algorithm a _ Ha Na) as [Ka Ca].
  destruct (recognized_operation o _ Ho No) as [Ko Co].
  repeat split; try assumption.
  unfold fullName, algorithmName, operationCode, setOperationCode, setAlgorithmName.
  rewrite Ha, Ho. reflexivity.
Qed.

Lemma name_setters_keep_given_spelling_witness :
  contains AlgorithmNames "blowfish" = true
  /\ contains OperationCodes "cTr" = true
  /\ algorithmName (setAlgorithmName "blowfish" (mkCipher "AES" "GCM" [] [])) = "blowfish"
  /\ operationCode (setOperationCode "cTr" (mkCipher "AES" "GCM" [] [])) = "cTr".
Proof.
  split; [reflexivity|]. split; [reflexivity|].
  pose proof (name_setters_keep_given_spelling "blowfish" "cTr"
                (mkCipher "AES" "GCM" [] []) eq_refl eq_refl) as H.
  split; [apply H | apply H].
Defined.

(** *** The full name read back *)

Lemma foldCase_slash : forall x, Ascii.eqb (foldCase x) "/" = Ascii.eqb x "/".
Proof.
  intros [b0 b1 b2 b3 b4 b5 b6 b7].
  destruct b0, b1, b2, b3, b4, b5, b6, b7; reflexivity.
Qed.

Lemma caselessEq_countSlash :
  forall a b, caselessEq a b = true -> countChar "/" a = countChar "/" b.
Proof.
  induction a as [|x a IH]; intros [|y b] H; simpl in *; try discriminate; [reflexivity|].
  apply andb_true_iff in H. destruct H as [Hxy Hab].
  apply Ascii.eqb_eq in Hxy.
  rewrite <- (foldCase_slash x), <- (foldCase_slash y), Hxy, (IH b Hab). reflexivity.
Qed.

Lemma recognized_no_slash :
  forall names name,
    Forall (fun n => countChar "/" n = 0) names ->
    contains names name = true ->
    countChar "/" name = 0.
Proof.
  intros names name F H. unfold contains in H.
  apply existsb_exists in H. destruct H as [canon [Hin Hc]].
  rewrite Forall_forall in F.
  rewrite <- (caselessEq_countSlash _ _ Hc). apply F. exact Hin.
Qed.

Lemma registry_no_slash :
  Forall (fun n => countChar "/" n = 0) AlgorithmNames
  /\ Forall (fun n => countChar "/" n = 0) OperationCodes.
Proof. split; repeat constructor. Qed.

Lemma split_no_sep : forall sep s, countChar sep s = 0 -> split sep s = [s].
Proof.
  intros sep s. induction s as [|ch rest IH]; simpl; intros H; [reflexivity|].
  destruct (Ascii.eqb ch sep); [discriminate H|].
  rewrite (IH H). reflexivity.
Qed.

Lemma split_app_sep :
  forall sep a o, countChar sep a = 0 ->
    split sep (a ++ String sep o)%string = a :: split sep o.
Proof.
  intros sep a o. induction a as [|ch rest IH]; simpl; intros H.
  - rewrite Ascii.eqb_refl. reflexivity.
  - destruct (Ascii.eqb ch sep); [discriminate H|].
    rewrite (IH H). reflexivity.
Qed.

(** [setFullName] of two recognized names joined by [/] stores both as
    given; in particular [setFullName(fullName())] gives the suite back
    when both of its names are recognized. *)
Lemma setFullName_fullName :
  forall c,
    contains AlgorithmNames (algorithmName c) = true ->
    contains OperationCodes (operationCode c) = true ->
    setFullName (fullName c) c = c.
Proof.
  intros [a o auth iv] Ha Ho. simpl in Ha, Ho.
  destruct registry_no_slash as [FA FO].
  pose proof (recognized_no_slash _ _ FA Ha) as Sa.
  pose proof (recognized_no_slash _ _ FO Ho) as So.
  unfold setFullName, fullName, algorithmName, operationCode.
  simpl m_algorithmName. simpl m_operationCode.
  simpl m_authentication. simpl m_initialVector.
  change (a ++ "/" ++ o)%string with (a ++ String "/" o)%string.
  rewrite (split_app_sep "/" a o Sa), (split_no_sep "/" o So).
  simpl. unfold setAlgorithmName, setOperationCode. simpl.
  rewrite Ha, Ho. reflexivity.
Qed.

(** C9, as the claim states it, fails: an odd number of digits and
    characters that are no hex digits do not make the decoding fail; the
    digits that are there are decoded and stored. *)
Lemma hex_setters_store_partial_decoding :
  initialVector (setInitialVectorHex "abc" (mkCipher "AES" "GCM" [] [])) = [x0a; xbc]
  /\ initialVector (setInitialVectorHex "abc" (mkCipher "AES" "GCM" [] [])) <> []
  /\ authentication (setAuthenticationHex "zz12" (mkCipher "AES" "GCM" [] [])) = [x12]
  /\ authentication (setAuthenticationHex "zz12" (mkCipher "AES" "GCM" [] [])) <> [].
Proof. repeat split; discriminate. Qed.

(** ** Key lengths *)

Section Nearest.

Variable x : N.

Lemma better_refl : forall r, better x r r.
Proof. intros r. right. split; [reflexivity | lia]. Qed.

Lemma better_trans : forall a b c, better x a b -> better x b c -> better x a c.
Proof. unfold better. intros a b c [H1|[H1 L1]] [H2|[H2 L2]]; lia. Qed.

Lemma closer_cases : forall best cand,
  closer x best cand = best \/ closer x best cand = cand.
Proof.
  intros best cand. unfold closer.
  destruct (distance cand x <? distance best x)%N; [right; reflexivity|].
  destruct ((distance cand x =? distance best x)%N && (best <? cand)%N); auto.
Qed.

Lemma closer_better : forall best cand,
  better x (closer x best cand) best /\ better x (closer x best cand) cand.
Proof.
  intros best cand. unfold closer, better.
  destruct (N.ltb_spec (distance cand x) (distance best x)) as [H|H].
  - split; [left; exact H | right; split; [reflexivity | lia]].
  - destruct (N.eqb_spec (distance cand x) (distance best x)) as [E|E]; simpl.
    + destruct (N.ltb_spec best cand) as [L|L].
      * split; right; split; try lia.
      * split; right; split; try lia.
    + split; [right; split; [reflexivity | lia] | left; lia].
Qed.

Lemma fold_closer_in : forall ls acc,
  fold_left (closer x) ls acc = acc \/ In (fold_left (closer x) ls acc) ls.
Proof.
  induction ls as [|a ls IH]; simpl; intros acc; [left; reflexivity|].
  destruct (IH (closer x acc a)) as [H|H]; [|right; right; exact H].
  rewrite H. destruct (closer_cases acc a) as [E|E]; rewrite E; auto.
Qed.

Lemma fold_closer_better_acc : forall ls acc,
  better x (fold_left (closer x) ls acc) acc.
Proof.
  induction ls as [|a ls IH]; simpl; intros acc; [apply better_refl|].
  eapply better_trans; [apply IH | apply closer_better].
Qed.

Lemma fold_closer_best : forall ls acc k,
  In k ls -> better x (fold_left (closer x) ls acc) k.
Proof.
  induction ls as [|a ls IH]; simpl; intros acc k H; [contradiction|].
  destruct H as [<-|H].
  - eapply better_trans; [apply fold_closer_better_acc | apply closer_better].
  - apply IH. exact H.
Qed.

Lemma better_self : forall r, better x r x -> r = x.
Proof.
  unfold better, distance. intros r.
  rewrite N.ltb_irrefl, N.sub_diag.
  destruct (N.ltb_spec r x); lia.
Qed.

End Nearest.

Lemma accepts_discrete : forall ls n, accepts (DiscreteLengths ls) n = true <-> In n ls.
Proof.
  intros ls n. simpl. rewrite existsb_exists. split.
  - intros [k [Hin Hk]]. apply N.eqb_eq in Hk. subst. exact Hin.
  - intros H. exists n. split; [exact H | apply N.eqb_refl].
Qed.

Lemma nearest_discrete : forall ls x, ls <> [] ->
  In (nearest (DiscreteLengths ls) x) ls
  /\ forall k, In k ls -> better x (nearest (DiscreteLengths ls) x) k.
Proof.
  intros [|l ls] x H; [contradiction H; reflexivity|]. simpl nearest. split.
  - destruct (fold_closer_in x ls l) as [E|E]; [rewrite E; left; reflexivity | right; exact E].
  - intros k [<-|Hk]; [apply fold_closer_better_acc | apply fold_closer_best; exact Hk].
Qed.

Lemma nearest_accepted : forall k x, wellFormed k = true -> accepts k (nearest k x) = true.
Proof.
  intros [n|ls|lo hi] x W.
  - simpl. apply N.eqb_refl.
  - apply accepts_discrete. apply nearest_discrete.
    intros ->. discriminate W.
  - simpl in *. apply N.leb_le in W.
    destruct (N.ltb_spec x lo); [|destruct (N.ltb_spec hi x)];
      apply andb_true_iff; split; apply N.leb_le; lia.
Qed.

Lemma nearest_of_accepted : forall k n, accepts k n = true -> nearest k n = n.
Proof.
  intros [m|ls|lo hi] n A.
  - simpl in *. apply N.eqb_eq in A. auto.
  - apply accepts_discrete in A.
    assert (N : ls <> []) by (intros ->; contradiction).
    apply better_self. apply nearest_discrete; assumption.
  - simpl in *. apply andb_true_iff in A. destruct A as [A1 A2].
    apply N.leb_le in A1, A2.
    destruct (N.ltb_spec n lo); [lia|]. destruct (N.ltb_spec hi n); [lia | reflexivity].
Qed.

(** C6: with a key-length table that is well formed for every algorithm
    (a non-empty discrete set, a non-empty range) and gives DES_EDE3 the
    fixed length 24, [validateKeyLength] on a suite with a resolved
    algorithm returns a length the algorithm accepts and is idempotent; a
    fixed-length algorithm ignores the request (DES_EDE3 answers 24 to a
    request of 10), a discrete set gives a member that no other member
    beats (none is closer, and none as close is larger), and a range clamps
    the request. *)
Theorem validateKeyLength_nearest_valid :
  forall (B : Backend),
    (forall a, a <> UnknownAlgorithm -> wellFormed (keyLengths B a) = true) ->
    keyLengths B DES_EDE3 = FixedLength 24 ->
    forall (c : Cipher) (x : N),
      algorithm c <> UnknownAlgorithm ->
      accepts (keyLengths B (algorithm c)) (validateKeyLength B c x) = true
      /\ validateKeyLength B c (validateKeyLength B c x) = validateKeyLength B c x
      /\ (forall n, keyLengths B (algorithm c) = FixedLength n ->
            validateKeyLength B c x = n)
      /\ (forall ls, keyLengths B (algorithm c) = DiscreteLengths ls ->
            In (validateKeyLength B c x) ls
            /\ forall k, In k ls ->
                 (distance (validateKeyLength B c x) x < distance k x)%N
                 \/ (distance (validateKeyLength B c x) x = distance k x
                     /\ (k <= validateKeyLength B c x)%N))
      /\ (forall lo hi, keyLengths B (algorithm c) = LengthRange lo hi ->
            validateKeyLength B c x = N.max lo (N.min x hi))
      /\ (algorithm c = DES_EDE3 -> validateKeyLength B c 10 = 24%N).
Proof.
  intros B Hwf Hdes c x Hc. unfold validateKeyLength.
  specialize (Hwf _ Hc).
  split; [apply nearest_accepted; exact Hwf|].
  split; [apply nearest_of_accepted, nearest_accepted; exact Hwf|].
  split; [intros n E; rewrite E; reflexivity|].
  split.
  - intros ls E. rewrite E in *.
    apply nearest_discrete. intros ->. discriminate Hwf.
  - split.
    + intros lo hi E. rewrite E in *. simpl in *. apply N.leb_le in Hwf.
      destruct (N.ltb_spec x lo); [|destruct (N.ltb_spec hi x)]; lia.
    + intros E. rewrite E, Hdes. reflexivity.
Qed.

Lemma validateKeyLength_nearest_valid_witness :
  algorithm (mkCipher "DES-EDE3" "CBC" [] []) <> UnknownAlgorithm
  /\ validateKeyLength testBackend (mkCipher "DES-EDE3" "CBC" [] []) 10 = 24%N
  /\ accepts (testKeyLengths AES) (validateKeyLength testBackend (mkCipher "AES" "GCM" [] []) 20)
     = true.
Proof.
  assert (W : forall a, a <> UnknownAlgorithm -> wellFormed (keyLengths testBackend a) = true).
  { intros a Ha. destruct a; try reflexivity. contradiction Ha; reflexivity. }
  split; [discriminate|]. split.
  - apply (validateKeyLength_nearest_valid testBackend W eq_refl
             (mkCipher "DES-EDE3" "CBC" [] []) 10%N); [discriminate | reflexivity].
  - apply (validateKeyLength_nearest_valid testBackend W eq_refl
             (mkCipher "AES" "GCM" [] []) 20%N). discriminate.
Defined.

(** The discrete policy on AES: 17 is closest to 16, and 20 and 28 lie
    half way and go to the larger neighbour. *)
Example validateKeyLength_AES_ties :
  map (validateKeyLength testBackend (mkCipher "AES" "GCM" [] [])) [0; 17; 20; 21; 28; 99]%N
  = [16; 16; 24; 24; 32; 32]%N.
Proof. reflexivity. Qed.

(** ** Byte strings *)

Lemma sameBytes_eq : forall a b, sameBytes a b = true <-> a = b.
Proof.
  induction a as [|x a IH]; intros [|y b]; simpl; split; intros H;
    try reflexivity; try discriminate.
  - apply andb_true_iff in H. destruct H as [H1 H2].
    apply Byte.byte_dec_bl in H1. apply IH in H2. subst. reflexivity.
  - injection H as -> ->. apply andb_true_iff. split.
    + apply Byte.byte_dec_lb. reflexivity.
    + apply IH. reflexivity.
Qed.

Lemma sameBytes_neq : forall a b, a <> b -> sameBytes a b = false.
Proof.
  intros a b H. destruct (sameBytes a b) eqn:E; [|reflexivity].
  apply sameBytes_eq in E. contradiction.
Qed.

Lemma flipByte_neq : forall k b, k < 8 -> flipByte k b <> b.
Proof.
  intros k b Hk.
  do 8 (destruct k as [|k]; [destruct b; vm_compute; discriminate|]).
  lia.
Qed.

Lemma flipBit_neq : forall bs i, i < 8 * List.length bs -> flipBit i bs <> bs.
Proof.
  induction bs as [|b bs IH]; simpl; intros i Hi; [lia|].
  destruct (Nat.ltb_spec i 8) as [L|L].
  - intros E. injection E as E. exact (flipByte_neq i b L E).
  - intros E. injection E as E. apply (IH (i - 8)); [lia | exact E].
Qed.

Lemma flipBit_length : forall bs i, List.length (flipBit i bs) = List.length bs.
Proof.
  induction bs as [|b bs IH]; simpl; intros i; [reflexivity|].
  destruct (i <? 8); simpl; [reflexivity | rewrite IH; reflexivity].
Qed.

(** ** The envelope *)

Section Envelope.

Variable B : Backend.

Lemma setInitialVector_names : forall iv c,
  algorithm (setInitialVector iv c) = algorithm c
  /\ operation (setInitialVector iv c) = operation c.
Proof. intros iv c. split; reflexivity. Qed.

Lemma unresolved_iff : forall c,
  resolved c = false <-> algorithm c = UnknownAlgorithm \/ operation c = UnknownOperation.
Proof.
  intros c. unfold resolved. split.
  - destruct (algorithm c), (operation c); intros H; try discriminate H; auto.
  - intros [H|H]; rewrite H; [reflexivity|]. destruct (algorithm c); reflexivity.
Qed.

(** What a successful [encrypt] has done. *)
Lemma encrypt_NoError :
  forall c crypt plain km rng,
    e_error (encrypt B c crypt plain km rng) = NoError ->
    resolved c = true
    /\ exists key,
         deriveKey km (validateKeyLength B c (preferredKeyLength km)) = Some key
         /\ exists iv,
              iv = fst (drawBytes (requiredIvLength B (algorithm c) (operation c)) rng)
              /\ ((isAead (operation c) = true
                   /\ exists tag,
                        aeadSeal B (algorithm c) (operation c) key iv plain
                        = Some (e_crypt (encrypt B c crypt plain km rng), tag)
                        /\ e_suite (encrypt B c crypt plain km rng)
                           = setAuthentication tag (setInitialVector iv c))
                  \/ (isAead (operation c) = false
                      /\ cipherEncrypt B (algorithm c) (operation c) key iv plain
                         = Some (e_crypt (encrypt B c crypt plain km rng))
                      /\ e_suite (encrypt B c crypt plain km rng)
                         = setAuthentication
                             (mac B key iv (e_crypt (encrypt B c crypt plain km rng)))
                             (setInitialVector iv c))).
Proof.
  intros c crypt plain km rng. unfold encrypt.
  destruct (resolved c); simpl; [|discriminate].
  destruct (deriveKey km (validateKeyLength B c (preferredKeyLength km))) as [key|];
    simpl; [|discriminate].
  intros H. split; [reflexivity|]. exists key. split; [reflexivity|].
  eexists. split; [reflexivity|].
  destruct (isAead (operation c)).
  - left. split; [reflexivity|].
    destruct (aeadSeal B (algorithm c) (operation c) key _ plain) as [[out tag]|];
      simpl in *; [|discriminate].
    exists tag. split; reflexivity.
  - right. split; [reflexivity|].
    destruct (cipherEncrypt B (algorithm c) (operation c) key _ plain) as [out|];
      simpl in *; [|discriminate].
    split; reflexivity.
Qed.


Lemma decrypt_failure_keeps_buffer :
  forall c buffer crypt km,
    d_error (decrypt B c buffer crypt km) <> NoError ->
    d_plain (decrypt B c buffer crypt km) = buffer.
Proof.
  intros c buffer crypt km. unfold decrypt.
  destruct (resolved c); simpl; [|reflexivity].
  destruct (deriveKey km (validateKeyLength B c (preferredKeyLength km))) as [key|];
    simpl; [|reflexivity].
  destruct (isAead (operation c)).
  - destruct (aeadOpen B (algorithm c) (operation c) key (initialVector c) crypt
                (authentication c)); simpl; intros H; try reflexivity.
    contradiction H; reflexivity.
  - destruct (sameBytes (mac B key (initialVector c) crypt) (authentication c));
      simpl; [|reflexivity].
    destruct (cipherDecrypt B (algorithm c) (operation c) key (initialVector c) crypt);
      simpl; intros H; try reflexivity.
    contradiction H; reflexivity.
Qed.

End Envelope.

Lemma sameBytes_refl : forall a, sameBytes a a = true.
Proof. intros a. apply sameBytes_eq. reflexivity. Qed.

Section RoundTrip.

Variable B : Backend.

(** The primitives decrypt what they encrypted. *)
Hypothesis cipher_inverse :
  forall a o key iv p out,
    cipherEncrypt B a o key iv p = Some out -> cipherDecrypt B a o key iv out = Some p.

Hypothesis aead_inverse :
  forall a o key iv p out tag,
    aeadSeal B a o key iv p = Some (out, tag) -> aeadOpen B a o key iv out tag = Plain p.

(** C1: when the primitives decrypt what they encrypted, a successful
    [encrypt] followed by [decrypt] of the produced ciphertext, on a
    suite with the same algorithm and operation and with the initial
    vector and authentication value that [encrypt] left on its suite, and
    with the same key maker, succeeds and gives back the plaintext, for
    every algorithm and operation. *)
Theorem encrypt_decrypt_roundtrip :
  forall (c : Cipher) (crypt : QByteArray) (plain : SequreBytes) (km : KeyMaker)
         (rng : Rng) (c2 : Cipher) (buffer : SequreBytes),
    e_error (encrypt B c crypt plain km rng) = NoError ->
    algorithm c2 = algorithm c ->
    operation c2 = operation c ->
    initialVector c2 = initialVector (e_suite (encrypt B c crypt plain km rng)) ->
    authentication c2 = authentication (e_suite (encrypt B c crypt plain km rng)) ->
    d_error (decrypt B c2 buffer (e_crypt (encrypt B c crypt plain km rng)) km) = NoError
    /\ d_plain (decrypt B c2 buffer (e_crypt (encrypt B c crypt plain km rng)) km) = plain.
Proof.
  intros c crypt plain km rng c2 buffer Herr Ha Ho Hiv Hauth.
  destruct (encrypt_NoError B _ _ _ _ _ Herr) as [Hres [key [Hkey [iv [_ Hcase]]]]].
  assert (Hres2 : resolved c2 = true).
  { unfold resolved in *. rewrite Ha, Ho. exact Hres. }
  assert (Hlen : validateKeyLength B c2 (preferredKeyLength km)
                 = validateKeyLength B c (preferredKeyLength km)).
  { unfold validateKeyLength. rewrite Ha. reflexivity. }
  unfold decrypt. rewrite Hres2, Hlen, Hkey, Ha, Ho, Hiv, Hauth. simpl negb. cbv iota.
  destruct Hcase as [[Haead [tag [Hseal Hsuite]]] | [Haead [Henc Hsuite]]];
    rewrite Haead, Hsuite; simpl initialVector; simpl authentication.
  - rewrite (aead_inverse _ _ _ _ _ _ _ Hseal). split; reflexivity.
  - rewrite sameBytes_refl, (cipher_inverse _ _ _ _ _ _ Henc). split; reflexivity.
Qed.

End RoundTrip.

Lemma testBackend_cipher_inverse :
  forall a o key iv p out,
    cipherEncrypt testBackend a o key iv p = Some out ->
    cipherDecrypt testBackend a o key iv out = Some p.
Proof.
  simpl. intros a o key iv p out H. injection H as <-.
  rewrite rev_involutive. reflexivity.
Qed.

Lemma testBackend_aead_inverse :
  forall a o key iv p out tag,
    aeadSeal testBackend a o key iv p = Some (out, tag) ->
    aeadOpen testBackend a o key iv out tag = Plain p.
Proof.
  simpl. intros a o key iv p out tag H. injection H as <- <-.
  rewrite sameBytes_refl, rev_involutive. reflexivity.
Qed.

Lemma encrypt_decrypt_roundtrip_witness :
  e_error (encrypt testBackend (mkCipher "AES" "GCM" [] []) [] helloWorld testKeyMaker
             countingRng) = NoError
  /\ d_plain (decrypt testBackend
                (e_suite (encrypt testBackend (mkCipher "AES" "GCM" [] []) [] helloWorld
                            testKeyMaker countingRng))
                []
                (e_crypt (encrypt testBackend (mkCipher "AES" "GCM" [] []) [] helloWorld
                            testKeyMaker countingRng))
                testKeyMaker)
     = helloWorld.
Proof.
  split; [reflexivity|].
  apply (encrypt_decrypt_roundtrip testBackend
           testBackend_cipher_inverse testBackend_aead_inverse
           (mkCipher "AES" "GCM" [] []) [] helloWorld testKeyMaker countingRng);
    reflexivity.
Defined.

Section Tampering.

Variable B : Backend.

(** [decrypt] reads the suite through its algorithm, its operation, its
    initial vector and its authentication value only. *)
Lemma decrypt_reads :
  forall c1 c2 buffer crypt km,
    algorithm c1 = algorithm c2 ->
    operation c1 = operation c2 ->
    initialVector c1 = initialVector c2 ->
    authentication c1 = authentication c2 ->
    decrypt B c1 buffer crypt km = decrypt B c2 buffer crypt km.
Proof.
  intros c1 c2 buffer crypt km Ha Ho Hiv Hauth.
  unfold decrypt, resolved, validateKeyLength.
  rewrite Ha, Ho, Hiv, Hauth. reflexivity.
Qed.

(** A resolved suite with a key: the authentication check decides. *)
Lemma decrypt_with_key :
  forall c buffer crypt km key,
    resolved c = true ->
    deriveKey km (validateKeyLength B c (preferredKeyLength km)) = Some key ->
    (isAead (operation c) = true ->
     aeadOpen B (algorithm c) (operation c) key (initialVector c) crypt (authentication c)
     = TagMismatch ->
     d_error (decrypt B c buffer crypt km) = AuthenticationError)
    /\ (isAead (operation c) = false ->
        mac B key (initialVector c) crypt <> authentication c ->
        d_error (decrypt B c buffer crypt km) = AuthenticationError).
Proof.
  intros c buffer crypt km key Hres Hkey. unfold decrypt.
  rewrite Hres, Hkey. simpl negb. cbv iota. split; intros Haead H; rewrite Haead.
  - rewrite H. reflexivity.
  - rewrite (sameBytes_neq _ _ H). reflexivity.
Qed.

(** The primitives notice one inverted bit. *)
Hypothesis mac_detects_flip :
  forall key iv out i,
    i < 8 * List.length out -> mac B key iv (flipBit i out) <> mac B key iv out.

Hypothesis aead_detects_crypt_flip :
  forall a o key iv p out tag i,
    aeadSeal B a o key iv p = Some (out, tag) ->
    i < 8 * List.length out ->
    aeadOpen B a o key iv (flipBit i out) tag = TagMismatch.

Hypothesis aead_detects_tag_flip :
  forall a o key iv p out tag i,
    aeadSeal B a o key iv p = Some (out, tag) ->
    i < 8 * List.length tag ->
    aeadOpen B a o key iv out (flipBit i tag) = TagMismatch.

(** C2: when the message authentication code and the authenticated
    primitives notice one inverted bit, then after a successful [encrypt],
    for every operation, inverting any bit of the ciphertext, or any bit
    of the authentication value stored on the suite, makes [decrypt] fail
    with [AuthenticationError]; and whenever [decrypt] fails, with any
    error, the plaintext buffer holds what it held before the call. *)
Theorem decrypt_rejects_flipped_bit :
  forall (c : Cipher) (crypt : QByteArray) (plain : SequreBytes) (km : KeyMaker)
         (rng : Rng) (buffer : SequreBytes) (i : nat),
    e_error (encrypt B c crypt plain km rng) = NoError ->
    (i < 8 * List.length (e_crypt (encrypt B c crypt plain km rng)) ->
     d_error (decrypt B (e_suite (encrypt B c crypt plain km rng)) buffer
                (flipBit i (e_crypt (encrypt B c crypt plain km rng))) km)
     = AuthenticationError
     /\ d_plain (decrypt B (e_suite (encrypt B c crypt plain km rng)) buffer
                   (flipBit i (e_crypt (encrypt B c crypt plain km rng))) km)
        = buffer)
    /\ (i < 8 * List.length (authentication (e_suite (encrypt B c crypt plain km rng))) ->
        d_error (decrypt B
                   (setAuthentication
                      (flipBit i (authentication (e_suite (encrypt B c crypt plain km rng))))
                      (e_suite (encrypt B c crypt plain km rng)))
                   buffer (e_crypt (encrypt B c crypt plain km rng)) km)
        = AuthenticationError
        /\ d_plain (decrypt B
                      (setAuthentication
                         (flipBit i
                            (authentication (e_suite (encrypt B c crypt plain km rng))))
                         (e_suite (encrypt B c crypt plain km rng)))
                      buffer (e_crypt (encrypt B c crypt plain km rng)) km)
           = buffer)
    /\ (forall c' crypt' km',
          d_error (decrypt B c' buffer crypt' km') <> NoError ->
          d_plain (decrypt B c' buffer crypt' km') = buffer).
Proof.
  intros c crypt plain km rng buffer i Herr.
  destruct (encrypt_NoError B _ _ _ _ _ Herr) as [Hres [key [Hkey [iv [_ Hcase]]]]].
  assert (Hfail : forall s cr, d_error (decrypt B s buffer cr km) = AuthenticationError ->
                    d_error (decrypt B s buffer cr km) = AuthenticationError
                    /\ d_plain (decrypt B s buffer cr km) = buffer).
  { intros s cr H. split; [exact H|].
    apply decrypt_failure_keeps_buffer. rewrite H. discriminate. }
  split; [|split].
  - intros Hi. apply Hfail.
    destruct Hcase as [[Haead [tag [Hseal Hsuite]]] | [Haead [Henc Hsuite]]];
      rewrite Hsuite.
    + destruct (decrypt_with_key (setAuthentication tag (setInitialVector iv c)) buffer
                  (flipBit i (e_crypt (encrypt B c crypt plain km rng))) km key
                  Hres Hkey) as [HA _].
      apply HA; [exact Haead|].
      apply (aead_detects_crypt_flip _ _ _ _ _ _ _ _ Hseal Hi).
    + destruct (decrypt_with_key
                  (setAuthentication
                     (mac B key iv (e_crypt (encrypt B c crypt plain km rng)))
                     (setInitialVector iv c)) buffer
                  (flipBit i (e_crypt (encrypt B c crypt plain km rng))) km key
                  Hres Hkey) as [_ HM].
      apply HM; [exact Haead|].
      apply (mac_detects_flip key iv _ i Hi).
  - intros Hi. apply Hfail.
    destruct Hcase as [[Haead [tag [Hseal Hsuite]]] | [Haead [Henc Hsuite]]];
      rewrite Hsuite in *.
    + destruct (decrypt_with_key
                  (setAuthentication (flipBit i tag)
                     (setAuthentication tag (setInitialVector iv c))) buffer
                  (e_crypt (encrypt B c crypt plain km rng)) km key
                  Hres Hkey) as [HA _].
      apply HA; [exact Haead|].
      apply (aead_detects_tag_flip _ _ _ _ _ _ _ _ Hseal Hi).
    + destruct (decrypt_with_key
                  (setAuthentication
                     (flipBit i (mac B key iv (e_crypt (encrypt B c crypt plain km rng))))
                     (setAuthentication
                        (mac B key iv (e_crypt (encrypt B c crypt plain km rng)))
                        (setInitialVector iv c))) buffer
                  (e_crypt (encrypt B c crypt plain km rng)) km key
                  Hres Hkey) as [_ HM].
      apply HM; [exact Haead|].
      intros E. symmetry in E. revert E. apply flipBit_neq. exact Hi.
  - intros c' crypt' km'. apply decrypt_failure_keeps_buffer.
Qed.

End Tampering.

Lemma testBackend_mac_detects_flip :
  forall key iv out i,
    i < 8 * List.length out ->
    mac testBackend key iv (flipBit i out) <> mac testBackend key iv out.
Proof.
  simpl. intros key iv out i Hi E.
  apply app_inv_head in E. exact (flipBit_neq out i Hi E).
Qed.

Lemma testBackend_aead_detects_crypt_flip :
  forall a o key iv p out tag i,
    aeadSeal testBackend a o key iv p = Some (out, tag) ->
    i < 8 * List.length out ->
    aeadOpen testBackend a o key iv (flipBit i out) tag = TagMismatch.
Proof.
  simpl. intros a o key iv p out tag i H Hi. injection H as <- <-.
  rewrite sameBytes_neq; [reflexivity|].
  intros E. do 2 apply app_inv_head in E. symmetry in E.
  exact (flipBit_neq _ i Hi E).
Qed.

Lemma testBackend_aead_detects_tag_flip :
  forall a o key iv p out tag i,
    aeadSeal testBackend a o key iv p = Some (out, tag) ->
    i < 8 * List.length tag ->
    aeadOpen testBackend a o key iv out (flipBit i tag) = TagMismatch.
Proof.
  simpl. intros a o key iv p out tag i H Hi. injection H as <- <-.
  rewrite sameBytes_neq; [reflexivity|].
  apply flipBit_neq. exact Hi.
Qed.

Lemma decrypt_rejects_flipped_bit_witness :
  e_error (encrypt testBackend (mkCipher "AES" "CBC" [] []) [] helloWorld testKeyMaker
             countingRng) = NoError
  /\ d_error (decrypt testBackend
                (e_suite (encrypt testBackend (mkCipher "AES" "CBC" [] []) [] helloWorld
                            testKeyMaker countingRng))
                [x00]
                (flipBit 3 (e_crypt (encrypt testBackend (mkCipher "AES" "CBC" [] []) []
                                       helloWorld testKeyMaker countingRng)))
                testKeyMaker)
     = AuthenticationError.
Proof.
  split; [reflexivity|].
  apply (decrypt_rejects_flipped_bit testBackend
           testBackend_mac_detects_flip
           testBackend_aead_detects_crypt_flip
           testBackend_aead_detects_tag_flip
           (mkCipher "AES" "CBC" [] []) [] helloWorld testKeyMaker countingRng [x00] 3
           eq_refl).
  simpl. lia.
Defined.

(** Tampering in an authenticated operation of the test backend: an
    inverted bit of the ciphertext, or of the stored tag, is rejected and
    the buffer is left alone. *)
Example tampered_GCM_rejected :
  d_error (decrypt testBackend
             (e_suite (encrypt testBackend (mkCipher "AES" "GCM" [] []) [] helloWorld
                         testKeyMaker countingRng))
             [x2a]
             (flipBit 80 (e_crypt (encrypt testBackend (mkCipher "AES" "GCM" [] []) []
                                     helloWorld testKeyMaker countingRng)))
             testKeyMaker) = AuthenticationError
  /\ decrypt testBackend
       (setAuthentication
          (flipBit 0 (authentication
                        (e_suite (encrypt testBackend (mkCipher "AES" "GCM" [] []) []
                                    helloWorld testKeyMaker countingRng))))
          (e_suite (encrypt testBackend (mkCipher "AES" "GCM" [] []) [] helloWorld
                      testKeyMaker countingRng)))
       [x2a]
       (e_crypt (encrypt testBackend (mkCipher "AES" "GCM" [] []) [] helloWorld
                   testKeyMaker countingRng))
       testKeyMaker
     = mkDecryptResult AuthenticationError [x2a] [DeriveKey 32; RunAead].
Proof. split; reflexivity. Qed.

Section Unresolved.

Variable B : Backend.

Lemma unresolved_encrypt :
  forall c crypt plain km rng,
    resolved c = false ->
    encrypt B c crypt plain km rng = mkEncryptResult ConfigurationError c crypt rng [].
Proof. intros c crypt plain km rng H. unfold encrypt. rewrite H. reflexivity. Qed.

Lemma unresolved_decrypt :
  forall c buffer crypt km,
    resolved c = false ->
    decrypt B c buffer crypt km = mkDecryptResult ConfigurationError buffer [].
Proof. intros c buffer crypt km H. unfold decrypt. rewrite H. reflexivity. Qed.

(** C3: after [setAlgorithmName] with a string that matches no registry
    name, [algorithmName] is empty and [algorithm] is [UnknownAlgorithm];
    and on any suite whose algorithm or operation resolves to [Unknown],
    [encrypt] and [decrypt] fail with [ConfigurationError] having called
    no collaborator: no key derived, no byte drawn from the random
    source, the suite and the output buffer as they were. *)
Theorem unrecognized_name_ConfigurationError :
  forall (name : QString) (c : Cipher),
    contains AlgorithmNames name = false ->
    algorithmName (setAlgorithmName name c) = EmptyString
    /\ algorithm (setAlgorithmName name c) = UnknownAlgorithm
    /\ (forall crypt plain km rng,
          encrypt B (setAlgorithmName name c) crypt plain km rng
          = mkEncryptResult ConfigurationError (setAlgorithmName name c) crypt rng [])
    /\ (forall buffer crypt km,
          decrypt B (setAlgorithmName name c) buffer crypt km
          = mkDecryptResult ConfigurationError buffer [])
    /\ (forall s : Cipher,
          algorithm s = UnknownAlgorithm \/ operation s = UnknownOperation ->
          (forall crypt plain km rng,
             encrypt B s crypt plain km rng
             = mkEncryptResult ConfigurationError s crypt rng [])
          /\ (forall buffer crypt km,
                decrypt B s buffer crypt km
                = mkDecryptResult ConfigurationError buffer [])).
Proof.
  intros name c H.
  assert (N : m_algorithmName (setAlgorithmName name c) = EmptyString).
  { unfold setAlgorithmName. rewrite H. reflexivity. }
  assert (U : algorithm (setAlgorithmName name c) = UnknownAlgorithm).
  { apply empty_name_unknown. exact N. }
  assert (R : resolved (setAlgorithmName name c) = false).
  { apply unresolved_iff. left. exact U. }
  split; [exact N|]. split; [exact U|].
  split; [intros; apply unresolved_encrypt; exact R|].
  split; [intros; apply unresolved_decrypt; exact R|].
  intros s Hs. apply unresolved_iff in Hs.
  split; intros; [apply unresolved_encrypt | apply unresolved_decrypt]; exact Hs.
Qed.

End Unresolved.

Lemma unrecognized_name_ConfigurationError_witness :
  contains AlgorithmNames "not-a-cipher" = false
  /\ algorithm (setAlgorithmName "not-a-cipher" (mkCipher "AES" "GCM" [] []))
     = UnknownAlgorithm
  /\ e_error (encrypt testBackend (setAlgorithmName "not-a-cipher" (mkCipher "AES" "GCM" [] []))
                [] helloWorld testKeyMaker countingRng) = ConfigurationError.
Proof.
  split; [reflexivity|].
  pose proof (unrecognized_name_ConfigurationError testBackend "not-a-cipher"
                (mkCipher "AES" "GCM" [] []) eq_refl) as [_ [U [E _]]].
  split; [exact U|]. rewrite E. reflexivity.
Defined.

(** ** Initial vectors *)

Lemma drawBytes_length : forall n rng, List.length (fst (drawBytes n rng)) = n.
Proof. intros n rng. simpl. rewrite length_map, length_seq. reflexivity. Qed.


(** ECB has a zero-length initial vector: two successive [encrypt] calls
    leave the same empty one.  A call that fails at the key derivation
    returns before the initial vector is drawn and leaves the stored one
    in place. *)
Example encrypt_ECB_and_failed_call :
  e_error (encrypt testBackend (mkCipher "AES" "ECB" [] []) [] helloWorld testKeyMaker
             countingRng) = NoError
  /\ e_error (encrypt testBackend
                (e_suite (encrypt testBackend (mkCipher "AES" "ECB" [] []) [] helloWorld
                            testKeyMaker countingRng))
                [] helloWorld testKeyMaker
                (e_rng (encrypt testBackend (mkCipher "AES" "ECB" [] []) [] helloWorld
                          testKeyMaker countingRng))) = NoError
  /\ initialVector
       (e_suite (encrypt testBackend
                   (e_suite (encrypt testBackend (mkCipher "AES" "ECB" [] []) [] helloWorld
                               testKeyMaker countingRng))
                   [] helloWorld testKeyMaker
                   (e_rng (encrypt testBackend (mkCipher "AES" "ECB" [] []) [] helloWorld
                             testKeyMaker countingRng))))
     = initialVector
         (e_suite (encrypt testBackend (mkCipher "AES" "ECB" [] []) [] helloWorld
                     testKeyMaker countingRng))
  /\ initialVector
       (e_suite (encrypt testBackend (mkCipher "AES" "CBC" [] [x01; x02]) [] helloWorld
                   failingKeyMaker countingRng))
     = [x01; x02].
Proof. repeat split. Qed.

Section InitialVector.

Variable B : Backend.


End InitialVector.



(** ** Scenarios *)

(** The default suite is AES/GCM with no initial vector and no
    authentication value; the [Unknown] enumerators construct nothing. *)
Example default_suite :
  newCipher AES GCM = Some (mkCipher "AES" "GCM" [] [])
  /\ newCipher UnknownAlgorithm GCM = None
  /\ newCipher AES UnknownOperation = None.
Proof. repeat split. Qed.

(** DES_EDE3/CBC asked for a key of 10 bytes answers 24. *)
Example DES_EDE3_request_10 :
  option_map (fun c => validateKeyLength testBackend c 10) (newCipher DES_EDE3 CBC)
  = Some 24%N.
Proof. reflexivity. Qed.

(** Hex strings: digits of either case, two to a byte; no digit, no byte. *)
Example fromHex_examples :
  fromHex (toLatin1 "0aBC") = [x0a; xbc]
  /\ fromHex (toLatin1 "0a bc") = [x0a; xbc]
  /\ fromHex (toLatin1 EmptyString) = []
  /\ fromHex (toLatin1 "xyz") = []
  /\ fromHex (toLatin1 "f") = [x0f].
Proof. repeat split. Qed.

(** * Further properties of the suite *)

(** ** Case-insensitive comparison *)

Lemma caselessEq_refl : forall a, caselessEq a a = true.
Proof.
  induction a as [|x a IH]; simpl; [reflexivity|].
  rewrite Ascii.eqb_refl, IH. reflexivity.
Qed.

Lemma caselessEq_sym : forall a b, caselessEq a b = caselessEq b a.
Proof.
  induction a as [|x a IH]; intros [|y b]; simpl; try reflexivity.
  rewrite Ascii.eqb_sym, IH. reflexivity.
Qed.

Lemma caselessEq_trans :
  forall a b c, caselessEq a b = true -> caselessEq b c = true -> caselessEq a c = true.
Proof.
  induction a as [|x a IH]; intros [|y b] [|z c] H1 H2; simpl in *;
    try discriminate; [reflexivity|].
  apply andb_true_iff in H1. destruct H1 as [Hxy Hab].
  apply andb_true_iff in H2. destruct H2 as [Hyz Hbc].
  apply Ascii.eqb_eq in Hxy. rewrite Hxy, Hyz. simpl. exact (IH b c Hab Hbc).
Qed.

(** Names equal up to case compare alike with every third name. *)
Lemma caselessEq_compat :
  forall a b x, caselessEq a b = true -> caselessEq x a = caselessEq x b.
Proof.
  intros a b x H.
  destruct (caselessEq x a) eqn:E1, (caselessEq x b) eqn:E2; try reflexivity.
  - rewrite (caselessEq_trans x a b E1 H) in E2. discriminate.
  - rewrite caselessEq_sym in H.
    rewrite (caselessEq_trans x b a E2 H) in E1. discriminate.
Qed.

Lemma lookupName_compat :
  forall names a b n, caselessEq a b = true -> lookupName names a n = lookupName names b n.
Proof.
  intros names a b n H. induction n as [|n IH]; simpl; [reflexivity|].
  rewrite (caselessEq_compat a b _ H), IH. reflexivity.
Qed.

Lemma contains_compat :
  forall names a b, caselessEq a b = true -> contains names a = contains names b.
Proof.
  intros names a b H. unfold contains.
  induction names as [|x names IH]; simpl; [reflexivity|].
  rewrite (caselessEq_compat a b x H), IH. reflexivity.
Qed.

(** X1: [algorithm] and [operation] read the stored names up to case:
    two suites whose algorithm names (operation codes) are equal up to the
    case of their letters resolve to the same enumerator; the comparison
    itself is reflexive, symmetric and transitive. *)
Theorem getters_read_names_up_to_case :
  forall c1 c2 : Cipher,
    (caselessEq (algorithmName c1) (algorithmName c2) = true ->
     algorithm c1 = algorithm c2)
    /\ (caselessEq (operationCode c1) (operationCode c2) = true ->
        operation c1 = operation c2)
    /\ caselessEq (algorithmName c1) (algorithmName c1) = true
    /\ caselessEq (algorithmName c1) (algorithmName c2)
       = caselessEq (algorithmName c2) (algorithmName c1).
Proof.
  intros c1 c2. unfold algorithm, operation, algorithmName, operationCode.
  split; [|split; [|split]].
  - intros H. rewrite (lookupName_compat _ _ _ _ H). reflexivity.
  - intros H. rewrite (lookupName_compat _ _ _ _ H). reflexivity.
  - apply caselessEq_refl.
  - apply caselessEq_sym.
Qed.

Lemma getters_read_names_up_to_case_witness :
  algorithm (mkCipher "sErPeNt" "ofb" [] []) = algorithm (mkCipher "SERPENT" "OFB" [x01] [])
  /\ operation (mkCipher "sErPeNt" "ofb" [] []) = operation (mkCipher "SERPENT" "OFB" [x01] []).
Proof.
  pose proof (getters_read_names_up_to_case
                (mkCipher "sErPeNt" "ofb" [] []) (mkCipher "SERPENT" "OFB" [x01] []))
    as [Ha [Ho _]].
  split; [apply Ha | apply Ho]; reflexivity.
Defined.

(** ** The lookup loop *)

Lemma lookupName_later :
  forall names name n i, lookupName names name n = Some i ->
    forall j, i < j -> j < n -> caselessEq (nth j names EmptyString) name = false.
Proof.
  intros names name. induction n as [|n IH]; simpl; intros i H j Hij Hjn; [lia|].
  destruct (caselessEq (nth n names EmptyString) name) eqn:E.
  - injection H as <-. lia.
  - destruct (Nat.eq_dec j n) as [->|Hne]; [exact E|].
    apply (IH i H); lia.
Qed.

(** X2: the lookup loop of [algorithm] and [operation] counts down from
    the end of the table, so it answers index [i] exactly when entry [i]
    equals the name up to case and no later entry does; it answers nothing
    exactly when no entry below the bound matches. *)
Theorem lookupName_last_match :
  forall (names : QStringList) (name : QString) (n i : nat),
    (lookupName names name n = Some i
     <-> i < n
         /\ caselessEq (nth i names EmptyString) name = true
         /\ forall j, i < j -> j < n -> caselessEq (nth j names EmptyString) name = false)
    /\ (lookupName names name n = None
        <-> forall j, j < n -> caselessEq (nth j names EmptyString) name = false).
Proof.
  intros names name n i. split.
  - split.
    + intros H. destruct (lookupName_some names name n i H) as [Hlt Hm].
      split; [exact Hlt|]. split; [exact Hm|]. apply (lookupName_later _ _ _ _ H).
    + intros [Hlt [Hm Hlater]].
      destruct (lookupName names name n) as [k|] eqn:E.
      * destruct (lookupName_some names name n k E) as [Hk Hkm].
        destruct (Nat.lt_trichotomy k i) as [L|[->|L]]; [| reflexivity |].
        -- rewrite (lookupName_later _ _ _ _ E i L Hlt) in Hm. discriminate.
        -- rewrite (Hlater k L Hk) in Hkm. discriminate.
      * rewrite (lookupName_none names name n E i Hlt) in Hm. discriminate.
  - split.
    + apply lookupName_none.
    + intros H. destruct (lookupName names name n) as [k|] eqn:E; [|reflexivity].
      destruct (lookupName_some names name n k E) as [Hk Hkm].
      rewrite (H k Hk) in Hkm. discriminate.
Qed.

(** ** Enum accessors *)

Lemma nth_error_contains :
  forall names i name, nth_error names i = Some name -> contains names name = true.
Proof.
  intros names i name H. unfold contains. apply existsb_exists.
  exists name. split; [exact (nth_error_In _ _ H) | apply caselessEq_refl].
Qed.

(** X3: the enum setters and getters round-trip: [setAlgorithm a] followed
    by [algorithm] gives [a] back and [algorithmName] is the table entry of
    [a], for every enumerator but [UnknownAlgorithm], for which the setter
    has no result (its index is past the table); likewise [setOperation]
    and [operation]. *)
Theorem enum_setters_roundtrip :
  forall c : Cipher,
    (forall a, match setAlgorithm a c with
               | Some c' => algorithm c' = a
                            /\ a <> UnknownAlgorithm
                            /\ nth_error AlgorithmNames (Algorithm_index a)
                               = Some (algorithmName c')
               | None => a = UnknownAlgorithm
               end)
    /\ (forall o, match setOperation o c with
                  | Some c' => operation c' = o
                               /\ o <> UnknownOperation
                               /\ nth_error OperationCodes (Operation_index o)
                                  = Some (operationCode c')
                  | None => o = UnknownOperation
                  end).
Proof.
  intros c. split.
  - intros a. destruct a; simpl; repeat split; discriminate.
  - intros o. destruct o; simpl; repeat split; discriminate.
Qed.

(** X4: the constructor gives a suite that resolves to the enumerators it
    was built from, with an empty initial vector and an empty
    authentication value; it has no result exactly when one of the
    enumerators is [Unknown]. *)
Theorem newCipher_resolves :
  forall (a : Algorithm) (o : Operation),
    match newCipher a o with
    | Some c => algorithm c = a /\ operation c = o
                /\ a <> UnknownAlgorithm /\ o <> UnknownOperation
                /\ initialVector c = [] /\ authentication c = []
    | None => a = UnknownAlgorithm \/ o = UnknownOperation
    end.
Proof.
  intros a o. destruct a, o; simpl; repeat split; try discriminate; auto.
Qed.

(** X5: the enum setters are the name setters at the table entry: when
    [setAlgorithm a] has a result, [setAlgorithmName] with the entry of [a]
    gives the same suite, and the same holds for [setOperation] and
    [setOperationCode]; so every table entry is accepted by its name
    setter. *)
Theorem enum_setter_is_name_setter :
  forall (c : Cipher),
    (forall a name, nth_error AlgorithmNames (Algorithm_index a) = Some name ->
       setAlgorithm a c = Some (setAlgorithmName name c)
       /\ algorithmName (setAlgorithmName name c) = name)
    /\ (forall o code, nth_error OperationCodes (Operation_index o) = Some code ->
          setOperation o c = Some (setOperationCode code c)
          /\ operationCode (setOperationCode code c) = code).
Proof.
  intros c. split.
  - intros a name H. unfold setAlgorithm, setAlgorithmName, algorithmName.
    rewrite H, (nth_error_contains _ _ _ H). split; reflexivity.
  - intros o code H. unfold setOperation, setOperationCode, operationCode.
    rewrite H, (nth_error_contains _ _ _ H). split; reflexivity.
Qed.

Lemma enum_setter_is_name_setter_witness :
  setAlgorithm Twofish (mkCipher "AES" "GCM" [x01] [x02])
  = Some (setAlgorithmName "Twofish" (mkCipher "AES" "GCM" [x01] [x02])).
Proof.
  apply (enum_setter_is_name_setter (mkCipher "AES" "GCM" [x01] [x02])).
  reflexivity.
Defined.

(** X6: [algorithm] answers [UnknownAlgorithm] exactly when the stored
    name equals no entry of the table up to case, and [operation] answers
    [UnknownOperation] exactly when the stored code equals none; in
    particular for a suite with empty names. *)
Theorem unknown_iff_not_contained :
  forall c : Cipher,
    (algorithm c = UnknownAlgorithm <-> contains AlgorithmNames (algorithmName c) = false)
    /\ (operation c = UnknownOperation <-> contains OperationCodes (operationCode c) = false)
    /\ (algorithmName c = EmptyString -> algorithm c = UnknownAlgorithm)
    /\ (operationCode c = EmptyString -> operation c = UnknownOperation).
Proof.
  intros c. unfold algorithmName, operationCode.
  split; [|split; [|split]].
  - split; intros H.
    + destruct (contains AlgorithmNames (m_algorithmName c)) eqn:E; [|reflexivity].
      destruct (recognized_algorithm _ c E eq_refl) as [K _]. contradiction.
    + unfold algorithm. rewrite (not_contains_lookupName _ _ H). reflexivity.
  - split; intros H.
    + destruct (contains OperationCodes (m_operationCode c)) eqn:E; [|reflexivity].
      destruct (recognized_operation _ c E eq_refl) as [K _]. contradiction.
    + unfold operation. rewrite (not_contains_lookupName _ _ H). reflexivity.
  - apply empty_name_unknown.
  - apply empty_code_unknown.
Qed.

Lemma unknown_iff_not_contained_witness :
  algorithmName (mkCipher EmptyString "GCM" [] []) = EmptyString
  /\ algorithm (mkCipher EmptyString "GCM" [] []) = UnknownAlgorithm.
Proof.
  split; [reflexivity|].
  apply (unknown_iff_not_contained (mkCipher EmptyString "GCM" [] [])). reflexivity.
Defined.

(** ** The names a suite holds *)

Lemma nameOk_cases :
  forall names s, nameOk names s = true <-> s = EmptyString \/ contains names s = true.
Proof.
  intros names s. destruct s as [|ch s]; simpl.
  - split; auto.
  - split; [auto | intros [H|H]; [discriminate | exact H]].
Qed.

Lemma nameOk_soft_setter :
  forall names s, nameOk names (if contains names s then s else EmptyString) = true.
Proof.
  intros names s. destruct (contains names s) eqn:E; [|reflexivity].
  apply nameOk_cases. right. exact E.
Qed.

(** A name a suite can hold is given back by its soft setter. *)
Lemma nameOk_kept :
  forall names s, nameOk names s = true ->
    (if contains names s then s else EmptyString) = s.
Proof.
  intros names s H. apply nameOk_cases in H.
  destruct (contains names s) eqn:E; [reflexivity|].
  destruct H as [->|H]; [reflexivity | discriminate].
Qed.

Lemma wellNamed_names :
  forall a o auth iv,
    wellNamed (mkCipher a o auth iv) = true
    <-> nameOk AlgorithmNames a = true /\ nameOk OperationCodes o = true.
Proof. intros a o auth iv. unfold wellNamed. cbn [m_algorithmName m_operationCode].
  apply andb_true_iff. Qed.

Lemma wellNamed_setAlgorithmName :
  forall name c, wellNamed c = true -> wellNamed (setAlgorithmName name c) = true.
Proof.
  intros name [a o auth iv] W. apply wellNamed_names in W. destruct W as [_ Wo].
  unfold setAlgorithmName. cbn [m_algorithmName m_operationCode m_authentication m_initialVector].
  destruct (contains AlgorithmNames name) eqn:E; apply wellNamed_names; split;
    try exact Wo; [apply nameOk_cases; right; exact E | reflexivity].
Qed.

Lemma wellNamed_setOperationCode :
  forall code c, wellNamed c = true -> wellNamed (setOperationCode code c) = true.
Proof.
  intros code [a o auth iv] W. apply wellNamed_names in W. destruct W as [Wa _].
  unfold setOperationCode. cbn [m_algorithmName m_operationCode m_authentication m_initialVector].
  destruct (contains OperationCodes code) eqn:E; apply wellNamed_names; split;
    try exact Wa; [apply nameOk_cases; right; exact E | reflexivity].
Qed.

(** X7: the invariant of the name fields.  A suite is well named when
    each of its two names is empty or equals a registry name up to case.
    The constructor gives a well-named suite, [setFullName] gives one from
    any suite, and every other setter keeps a well-named suite well
    named. *)
Theorem wellNamed_invariant :
  (forall a o c, newCipher a o = Some c -> wellNamed c = true)
  /\ (forall name c, wellNamed (setFullName name c) = true)
  /\ (forall c, wellNamed c = true ->
        (forall a c', setAlgorithm a c = Some c' -> wellNamed c' = true)
        /\ (forall o c', setOperation o c = Some c' -> wellNamed c' = true)
        /\ (forall name, wellNamed (setAlgorithmName name c) = true)
        /\ (forall code, wellNamed (setOperationCode code c) = true)
        /\ (forall iv, wellNamed (setInitialVector iv c) = true)
        /\ (forall hex, wellNamed (setInitialVectorHex hex c) = true)
        /\ (forall auth, wellNamed (setAuthentication auth c) = true)
        /\ (forall hex, wellNamed (setAuthenticationHex hex c) = true)).
Proof.
  split; [|split].
  - intros a o c H. destruct a, o; simpl in H; try discriminate;
      injection H as <-; reflexivity.
  - intros name c. unfold setFullName.
    destruct (Nat.eqb (List.length (split "/" name)) 2); [|reflexivity].
    apply wellNamed_setOperationCode, wellNamed_setAlgorithmName. reflexivity.
  - intros [a o auth iv] W. pose proof W as W'.
    apply wellNamed_names in W'. destruct W' as [Wa Wo].
    split; [|split; [|split; [|split; [|split; [|split; [|split]]]]]].
    + intros x c' H. unfold setAlgorithm in H.
      destruct (nth_error AlgorithmNames (Algorithm_index x)) as [name|] eqn:E;
        [|discriminate].
      injection H as <-. apply wellNamed_names. split; [|exact Wo].
      apply nameOk_cases. right. exact (nth_error_contains _ _ _ E).
    + intros x c' H. unfold setOperation in H.
      destruct (nth_error OperationCodes (Operation_index x)) as [code|] eqn:E;
        [|discriminate].
      injection H as <-. apply wellNamed_names. split; [exact Wa|].
      apply nameOk_cases. right. exact (nth_error_contains _ _ _ E).
    + intros name. apply wellNamed_setAlgorithmName. exact W.
    + intros code. apply wellNamed_setOperationCode. exact W.
    + intros x. exact W.
    + intros x. exact W.
    + intros x. exact W.
    + intros x. exact W.
Qed.

Lemma wellNamed_invariant_witness :
  wellNamed (mkCipher "aes" EmptyString [] []) = true
  /\ wellNamed (setOperationCode "nonsense" (mkCipher "aes" EmptyString [] [])) = true
  /\ wellNamed (setFullName "a/b/c" (mkCipher "bogus" "bogus" [] [])) = true.
Proof.
  destruct wellNamed_invariant as [_ [F K]].
  split; [reflexivity|]. split.
  - apply (K (mkCipher "aes" EmptyString [] []) eq_refl).
  - apply F.
Defined.

Lemma nameOk_no_slash :
  forall names s,
    Forall (fun n => countChar "/" n = 0) names ->
    nameOk names s = true -> countChar "/" s = 0.
Proof.
  intros names s F H. apply nameOk_cases in H. destruct H as [->|H]; [reflexivity|].
  exact (recognized_no_slash names s F H).
Qed.

Lemma setAlgorithmName_stores :
  forall name c,
    setAlgorithmName name c
    = mkCipher (if contains AlgorithmNames name then name else EmptyString)
        (m_operationCode c) (m_authentication c) (m_initialVector c).
Proof.
  intros name c. unfold setAlgorithmName.
  destruct (contains AlgorithmNames name); reflexivity.
Qed.

Lemma setOperationCode_stores :
  forall code c,
    setOperationCode code c
    = mkCipher (m_algorithmName c)
        (if contains OperationCodes code then code else EmptyString)
        (m_authentication c) (m_initialVector c).
Proof.
  intros code c. unfold setOperationCode.
  destruct (contains OperationCodes code); reflexivity.
Qed.

Lemma setFullName_two_segments :
  forall a o c,
    countChar "/" a = 0 -> countChar "/" o = 0 ->
    setFullName (a ++ "/" ++ o)%string c
    = mkCipher (if contains AlgorithmNames a then a else EmptyString)
        (if contains OperationCodes o then o else EmptyString)
        (m_authentication c) (m_initialVector c).
Proof.
  intros a o c Sa So. unfold setFullName.
  change (a ++ "/" ++ o)%string with (a ++ String "/" o)%string.
  rewrite (split_app_sep "/" a o Sa), (split_no_sep "/" o So).
  change (Nat.eqb (List.length [a; o]) 2) with true. cbv iota.
  change (hd EmptyString [a; o]) with a.
  change (last (tl [a; o]) EmptyString) with o.
  rewrite setOperationCode_stores, setAlgorithmName_stores. reflexivity.
Qed.

(** X8: the full name round-trips on every well-named suite:
    [setFullName(fullName())] gives the suite back, names, initial vector
    and authentication value, also when one or both names are empty. *)
Theorem setFullName_fullName_wellNamed :
  forall c : Cipher, wellNamed c = true -> setFullName (fullName c) c = c.
Proof.
  intros [a o auth iv] W. apply wellNamed_names in W. destruct W as [Wa Wo].
  destruct registry_no_slash as [FA FO].
  unfold fullName, algorithmName, operationCode.
  cbn [m_algorithmName m_operationCode].
  rewrite (setFullName_two_segments a o _
             (nameOk_no_slash _ _ FA Wa) (nameOk_no_slash _ _ FO Wo)).
  rewrite (nameOk_kept _ _ Wa), (nameOk_kept _ _ Wo). reflexivity.
Qed.

Lemma setFullName_fullName_wellNamed_witness :
  setFullName (fullName (mkCipher EmptyString "cfb" [x01] [x02]))
    (mkCipher EmptyString "cfb" [x01] [x02])
  = mkCipher EmptyString "cfb" [x01] [x02].
Proof.
  apply (setFullName_fullName_wellNamed (mkCipher EmptyString "cfb" [x01] [x02])).
  reflexivity.
Defined.

(** X9: on well-named suites the full name identifies the two names: two
    well-named suites with the same [fullName] have the same algorithm
    name and the same operation code, hence the same algorithm and
    operation. *)
Theorem fullName_identifies_names :
  forall c1 c2 : Cipher,
    wellNamed c1 = true -> wellNamed c2 = true ->
    fullName c1 = fullName c2 ->
    algorithmName c1 = algorithmName c2
    /\ operationCode c1 = operationCode c2
    /\ algorithm c1 = algorithm c2
    /\ operation c1 = operation c2.
Proof.
  intros [a1 o1 auth1 iv1] [a2 o2 auth2 iv2] W1 W2 H.
  apply wellNamed_names in W1. destruct W1 as [Wa1 Wo1].
  apply wellNamed_names in W2. destruct W2 as [Wa2 Wo2].
  destruct registry_no_slash as [FA FO].
  unfold fullName, algorithmName, operationCode, algorithm, operation in *.
  cbn [m_algorithmName m_operationCode] in *.
  change (a1 ++ "/" ++ o1)%string with (a1 ++ String "/" o1)%string in H.
  change (a2 ++ "/" ++ o2)%string with (a2 ++ String "/" o2)%string in H.
  assert (S : split "/" (a1 ++ String "/" o1)%string = split "/" (a2 ++ String "/" o2)%string)
    by (rewrite H; reflexivity).
  rewrite (split_app_sep "/" a1 o1 (nameOk_no_slash _ _ FA Wa1)) in S.
  rewrite (split_app_sep "/" a2 o2 (nameOk_no_slash _ _ FA Wa2)) in S.
  rewrite (split_no_sep "/" o1 (nameOk_no_slash _ _ FO Wo1)) in S.
  rewrite (split_no_sep "/" o2 (nameOk_no_slash _ _ FO Wo2)) in S.
  injection S as -> ->. repeat split.
Qed.

Lemma fullName_identifies_names_witness :
  algorithmName (mkCipher "idea" "eax" [x01] []) = algorithmName (mkCipher "idea" "eax" [] [x02]).
Proof.
  apply (fullName_identifies_names (mkCipher "idea" "eax" [x01] [])
           (mkCipher "idea" "eax" [] [x02])); reflexivity.
Defined.

(** Without the invariant the full name does not identify the names. *)
Example fullName_ambiguous_outside_invariant :
  fullName (mkCipher "a/b" "c" [] []) = fullName (mkCipher "a" "b/c" [] [])
  /\ wellNamed (mkCipher "a/b" "c" [] []) = false.
Proof. split; reflexivity. Qed.

(** X10: on a well-named suite a name is empty exactly when its getter
    answers [Unknown]: the empty string is the only unresolved name the
    setters can leave behind. *)
Theorem wellNamed_empty_iff_unknown :
  forall c : Cipher,
    wellNamed c = true ->
    (algorithmName c = EmptyString <-> algorithm c = UnknownAlgorithm)
    /\ (operationCode c = EmptyString <-> operation c = UnknownOperation).
Proof.
  intros [a o auth iv] W. apply wellNamed_names in W. destruct W as [Wa Wo].
  apply nameOk_cases in Wa, Wo.
  unfold algorithmName, operationCode. cbn [m_algorithmName m_operationCode].
  split; split; intros H.
  - apply empty_name_unknown. exact H.
  - destruct Wa as [E|E]; [exact E|].
    destruct (recognized_algorithm a (mkCipher a o auth iv) E eq_refl) as [K _].
    contradiction.
  - apply empty_code_unknown. exact H.
  - destruct Wo as [E|E]; [exact E|].
    destruct (recognized_operation o (mkCipher a o auth iv) E eq_refl) as [K _].
    contradiction.
Qed.

Lemma wellNamed_empty_iff_unknown_witness :
  algorithmName (setAlgorithmName "rot13" (mkCipher "AES" "GCM" [] [])) = EmptyString
  <-> algorithm (setAlgorithmName "rot13" (mkCipher "AES" "GCM" [] [])) = UnknownAlgorithm.
Proof.
  apply (wellNamed_empty_iff_unknown (setAlgorithmName "rot13" (mkCipher "AES" "GCM" [] []))).
  reflexivity.
Defined.

(** ** Splitting and case *)

Lemma caseless_same_slash :
  forall x y, Ascii.eqb (foldCase x) (foldCase y) = true ->
    Ascii.eqb x "/" = Ascii.eqb y "/".
Proof.
  intros x y H. apply Ascii.eqb_eq in H.
  rewrite <- (foldCase_slash x), <- (foldCase_slash y), H. reflexivity.
Qed.

Lemma split_caseless :
  forall s s', caselessEq s s' = true ->
    Forall2 (fun a b => caselessEq a b = true) (split "/" s) (split "/" s').
Proof.
  induction s as [|x s IH]; intros [|y s'] H; simpl in H; try discriminate.
  - repeat constructor.
  - apply andb_true_iff in H. destruct H as [Hxy Hss].
    specialize (IH s' Hss). simpl.
    rewrite (caseless_same_slash x y Hxy).
    destruct (Ascii.eqb y "/").
    + constructor; [reflexivity | exact IH].
    + pose proof (split_length "/" s) as L. pose proof (split_length "/" s') as L'.
      destruct (split "/" s) as [|seg segs]; [discriminate L|].
      destruct (split "/" s') as [|seg' segs']; [discriminate L'|].
      apply Forall2_cons_iff in IH. destruct IH as [Hseg Hsegs].
      constructor; [|exact Hsegs]. simpl. rewrite Hxy, Hseg. reflexivity.
Qed.

(** X11: [setFullName] reads its argument up to case: two strings equal
    up to the case of their letters give suites that resolve to the same
    algorithm and the same operation, and that are both resolved or both
    not. *)
Theorem setFullName_up_to_case :
  forall (s s' : QString) (c : Cipher),
    caselessEq s s' = true ->
    algorithm (setFullName s c) = algorithm (setFullName s' c)
    /\ operation (setFullName s c) = operation (setFullName s' c)
    /\ caselessEq (fullName (setFullName s c)) (fullName (setFullName s' c)) = true.
Proof.
  intros s s' c H. pose proof (split_caseless s s' H) as F.
  unfold setFullName.
  rewrite <- (Forall2_length F).
  destruct (Nat.eqb (List.length (split "/" s)) 2) eqn:E;
    [|repeat split; reflexivity].
  apply Nat.eqb_eq in E.
  destruct F as [|a a' l l' Ha F]; [discriminate E|].
  destruct F as [|o o' l l' Ho F]; [discriminate E|].
  destruct F as [|x x' l l' Hx F]; [|discriminate E].
  change (hd EmptyString [a; o]) with a. change (hd EmptyString [a'; o']) with a'.
  change (last (tl [a; o]) EmptyString) with o.
  change (last (tl [a'; o']) EmptyString) with o'.
  rewrite !setOperationCode_stores, !setAlgorithmName_stores.
  cbn [m_algorithmName m_operationCode m_authentication m_initialVector].
  assert (Ca : contains AlgorithmNames a = contains AlgorithmNames a').
  { apply contains_compat. exact Ha. }
  assert (Co : contains OperationCodes o = contains OperationCodes o').
  { apply contains_compat. exact Ho. }
  rewrite <- Ca, <- Co.
  assert (Na : caselessEq (if contains AlgorithmNames a then a else EmptyString)
                 (if contains AlgorithmNames a then a' else EmptyString) = true)
    by (destruct (contains AlgorithmNames a); [exact Ha | reflexivity]).
  assert (No : caselessEq (if contains OperationCodes o then o else EmptyString)
                 (if contains OperationCodes o then o' else EmptyString) = true)
    by (destruct (contains OperationCodes o); [exact Ho | reflexivity]).
  split; [|split].
  - unfold algorithm. cbn [m_algorithmName].
    rewrite (lookupName_compat _ _ _ _ Na). reflexivity.
  - unfold operation. cbn [m_operationCode].
    rewrite (lookupName_compat _ _ _ _ No). reflexivity.
  - unfold fullName, algorithmName, operationCode. cbn [m_algorithmName m_operationCode].
    revert Na No.
    generalize (if contains AlgorithmNames a then a else EmptyString).
    generalize (if contains AlgorithmNames a then a' else EmptyString).
    generalize (if contains OperationCodes o then o else EmptyString).
    generalize (if contains OperationCodes o then o' else EmptyString).
    intros q' q p' p Na No.
    revert p' Na. induction p as [|ch p IHp]; intros [|ch' p'] Na; simpl in Na;
      try discriminate; simpl.
    + exact No.
    + apply andb_true_iff in Na. destruct Na as [N1 N2].
      rewrite N1. simpl. apply IHp. exact N2.
Qed.

Lemma setFullName_up_to_case_witness :
  algorithm (setFullName "camellia/ctr" (mkCipher "AES" "GCM" [] []))
  = algorithm (setFullName "Camellia/CTR" (mkCipher "AES" "GCM" [] [])).
Proof.
  apply (setFullName_up_to_case "camellia/ctr" "Camellia/CTR" (mkCipher "AES" "GCM" [] [])).
  reflexivity.
Defined.

(** X12: splitting loses nothing: the segments of [split] joined with the
    separator give the string back, no segment holds the separator, and
    there is one more segment than there are separators. *)
Theorem split_concat :
  forall (sep : ascii) (s : QString),
    String.concat (String sep EmptyString) (split sep s) = s
    /\ Forall (fun seg => countChar sep seg = 0) (split sep s)
    /\ List.length (split sep s) = S (countChar sep s).
Proof.
  intros sep s. split; [|split; [|apply split_length]].
  - induction s as [|ch rest IH]; [reflexivity|]. simpl.
    pose proof (split_length sep rest) as L.
    destruct (Ascii.eqb ch sep) eqn:E.
    + apply Ascii.eqb_eq in E. subst ch.
      destruct (split sep rest) as [|seg segs]; [discriminate L|].
      change (String.concat (String sep EmptyString) (EmptyString :: seg :: segs))
        with (String sep (String.concat (String sep EmptyString) (seg :: segs))).
      rewrite IH. reflexivity.
    + destruct (split sep rest) as [|seg segs]; [discriminate L|].
      destruct segs as [|seg2 segs].
      * simpl in *. rewrite IH. reflexivity.
      * change (String.concat (String sep EmptyString) (String ch seg :: seg2 :: segs))
          with (String ch (seg ++ String sep
                             (String.concat (String sep EmptyString) (seg2 :: segs))))%string.
        change (String.concat (String sep EmptyString) (seg :: seg2 :: segs))
          with (seg ++ String sep
                  (String.concat (String sep EmptyString) (seg2 :: segs)))%string in IH.
        rewrite IH. reflexivity.
  - induction s as [|ch rest IH]; simpl; [repeat constructor|].
    pose proof (split_length sep rest) as L.
    destruct (Ascii.eqb ch sep) eqn:E.
    + constructor; [reflexivity | exact IH].
    + destruct (split sep rest) as [|seg segs]; [discriminate L|].
      inversion IH as [|? ? Hseg Hsegs]. subst.
      constructor; [|exact Hsegs]. simpl. rewrite E. exact Hseg.
Qed.

(** ** Hex decoding, digit by digit *)

Lemma fromHex_loop_filter :
  forall chars odd_digit result,
    fromHex_loop (filter isHexDigit chars) odd_digit result
    = fromHex_loop chars odd_digit result.
Proof.
  induction chars as [|ch rest IH]; intros odd_digit result; [reflexivity|].
  simpl filter. unfold isHexDigit at 1.
  destruct (hexDigit ch) as [tmp|] eqn:E; simpl fromHex_loop; rewrite E.
  - destruct odd_digit; [apply IH|].
    destruct result as [|b bs]; apply IH.
  - apply IH.
Qed.

(** X13: the hex variants of [setInitialVector] and [setAuthentication]
    skip every character that is no hex digit: a string and the same
    string with those characters removed store the same bytes. *)
Theorem fromHex_skips_non_digits :
  forall (hex : QString) (c : Cipher),
    fromHex (toLatin1 hex) = fromHex (filter isHexDigit (toLatin1 hex))
    /\ initialVector (setInitialVectorHex hex c)
       = fromHex (filter isHexDigit (toLatin1 hex))
    /\ authentication (setAuthenticationHex hex c)
       = fromHex (filter isHexDigit (toLatin1 hex)).
Proof.
  intros hex c.
  assert (H : fromHex (toLatin1 hex) = fromHex (filter isHexDigit (toLatin1 hex))).
  { unfold fromHex. rewrite <- filter_rev, fromHex_loop_filter. reflexivity. }
  split; [exact H|]. split; exact H.
Qed.

(** The bytes already written stay behind whatever is decoded next. *)
Lemma fromHex_loop_app_result :
  forall chars odd_digit pre result,
    (odd_digit = false -> pre <> []) ->
    fromHex_loop chars odd_digit (pre ++ result)
    = fromHex_loop chars odd_digit pre ++ result.
Proof.
  induction chars as [|ch rest IH]; intros odd_digit pre result Hpre; [reflexivity|].
  simpl fromHex_loop. destruct (hexDigit ch) as [tmp|].
  - destruct odd_digit.
    + apply (IH false (byteOfN tmp :: pre) result). intros _. discriminate.
    + destruct pre as [|b bs]; [exfalso; apply Hpre; reflexivity|].
      simpl app. apply (IH true (_ :: bs) result). intros; discriminate.
  - apply IH. exact Hpre.
Qed.

(** A prefix with an even number of digits leaves the loop where it
    started. *)
Lemma fromHex_loop_app_chars :
  forall l1 l2 odd_digit result,
    (odd_digit = false -> result <> []) ->
    fromHex_loop (l1 ++ l2) odd_digit result
    = fromHex_loop l2 (if Nat.even (countHex l1) then odd_digit else negb odd_digit)
        (fromHex_loop l1 odd_digit result).
Proof.
  induction l1 as [|ch rest IH]; intros l2 odd_digit result Hres.
  - reflexivity.
  - rewrite countHex_cons. simpl app. simpl fromHex_loop.
    destruct (hexDigit ch) as [tmp|].
    + change (1 + countHex rest) with (S (countHex rest)).
      rewrite Nat.even_succ, <- Nat.negb_even.
      destruct odd_digit.
      * rewrite IH by (intros _; discriminate).
        destruct (Nat.even (countHex rest)); reflexivity.
      * destruct result as [|b bs]; [exfalso; apply Hres; reflexivity|].
        rewrite IH by (intros; discriminate).
        destruct (Nat.even (countHex rest)); reflexivity.
    + simpl plus. apply IH. exact Hres.
Qed.

Lemma fromHex_app_even :
  forall a b : QByteArray,
    Nat.even (countHex b) = true ->
    fromHex (a ++ b) = fromHex a ++ fromHex b.
Proof.
  intros a b H. unfold fromHex.
  rewrite rev_app_distr.
  rewrite fromHex_loop_app_chars by discriminate.
  rewrite countHex_rev, H.
  rewrite <- (app_nil_l (fromHex_loop (rev b) true [])) at 1.
  apply fromHex_loop_app_result. discriminate.
Qed.

(** X14: hex strings decode piecewise from the right: when the second
    part holds an even number of hex digits, decoding the concatenation
    gives the bytes of the first part followed by the bytes of the
    second, and the lengths add up. *)
Theorem fromHex_app :
  forall a b : QByteArray,
    Nat.even (countHex b) = true ->
    fromHex (a ++ b) = fromHex a ++ fromHex b
    /\ List.length (fromHex (a ++ b)) = List.length (fromHex a) + countHex b / 2.
Proof.
  intros a b H. rewrite (fromHex_app_even a b H). split; [reflexivity|].
  rewrite length_app, (fromHex_length b). f_equal.
  apply Nat.even_spec in H. destruct H as [k ->].
  replace (2 * k + 1) with (1 + k * 2) by lia.
  rewrite Nat.div_add by discriminate.
  replace (2 * k) with (0 + k * 2) by lia.
  rewrite Nat.div_add by discriminate. reflexivity.
Qed.

Lemma fromHex_app_witness :
  fromHex (toLatin1 "abc" ++ toLatin1 "12-34") = fromHex (toLatin1 "abc") ++ fromHex (toLatin1 "12-34").
Proof. apply (fromHex_app (toLatin1 "abc") (toLatin1 "12-34")). reflexivity. Defined.

(** An odd second part shifts the digits of the first. *)
Example fromHex_app_odd :
  fromHex (toLatin1 "ab" ++ toLatin1 "c") = [x0a; xbc]
  /\ fromHex (toLatin1 "ab") ++ fromHex (toLatin1 "c") = [xab; x0c].
Proof. split; reflexivity. Qed.

Lemma hexDigit_bound : forall ch v, hexDigit ch = Some v -> (v < 16)%N.
Proof.
  intros ch v H. destruct ch; vm_compute in H; try discriminate H;
    injection H as <-; reflexivity.
Qed.

Lemma nibbles_byte :
  forall hi lo, (hi < 16)%N -> (lo < 16)%N ->
    byteOfN (N.lor (Byte.to_N (byteOfN lo)) (N.shiftl hi 4)) = byteOfN (16 * hi + lo).
Proof.
  intros hi lo Hhi Hlo.
  assert (Eh : exists h, h < 16 /\ hi = N.of_nat h)
    by (exists (N.to_nat hi); split; lia).
  assert (El : exists l, l < 16 /\ lo = N.of_nat l)
    by (exists (N.to_nat lo); split; lia).
  destruct Eh as [h [Hh ->]]. destruct El as [l [Hl ->]].
  do 16 (destruct h as [|h]; [do 16 (destruct l as [|l]; [reflexivity|]); lia|]).
  lia.
Qed.

(** X15: two hex digits make one byte, the first digit its high half:
    in front of a string with an even number of hex digits, the digits
    [h] and [l] with values [vh] and [vl] decode to the byte
    [16 * vh + vl] followed by the bytes of the rest. *)
Theorem fromHex_pair :
  forall (h l : byte) (vh vl : N) (rest : QByteArray),
    hexDigit h = Some vh ->
    hexDigit l = Some vl ->
    Nat.even (countHex rest) = true ->
    fromHex (h :: l :: rest) = byteOfN (16 * vh + vl) :: fromHex rest.
Proof.
  intros h l vh vl rest Hh Hl He.
  change (h :: l :: rest) with ([h; l] ++ rest).
  rewrite (fromHex_app_even [h; l] rest He).
  unfold fromHex at 1. simpl rev. simpl fromHex_loop. rewrite Hl, Hh.
  rewrite (nibbles_byte vh vl (hexDigit_bound h vh Hh) (hexDigit_bound l vl Hl)).
  reflexivity.
Qed.

Lemma fromHex_pair_witness :
  fromHex (toLatin1 "7fA0") = byteOfN (16 * 7 + 15) :: fromHex (toLatin1 "A0").
Proof.
  apply (fromHex_pair "7"%byte "f"%byte 7%N 15%N (toLatin1 "A0")); reflexivity.
Defined.

(** ** Setters in sequence *)

(** X16: the four fields are set independently.  Setters of different
    fields commute, a second call of a setter replaces what the first one
    stored, and [setFullName] replaces both names whatever was set
    before. *)
Theorem setters_compose :
  forall (c : Cipher) (a a' o o' s : QString) (iv iv' auth auth' : QByteArray),
    setAlgorithmName a (setOperationCode o c) = setOperationCode o (setAlgorithmName a c)
    /\ setInitialVector iv (setAuthentication auth c)
       = setAuthentication auth (setInitialVector iv c)
    /\ setAlgorithmName a (setInitialVector iv (setAuthentication auth c))
       = setInitialVector iv (setAuthentication auth (setAlgorithmName a c))
    /\ setOperationCode o (setInitialVector iv (setAuthentication auth c))
       = setInitialVector iv (setAuthentication auth (setOperationCode o c))
    /\ setAlgorithmName a' (setAlgorithmName a c) = setAlgorithmName a' c
    /\ setOperationCode o' (setOperationCode o c) = setOperationCode o' c
    /\ setInitialVector iv' (setInitialVector iv c) = setInitialVector iv' c
    /\ setAuthentication auth' (setAuthentication auth c) = setAuthentication auth' c
    /\ setFullName s (setOperationCode o (setAlgorithmName a c)) = setFullName s c
    /\ setFullName s (setInitialVector iv (setAuthentication auth c))
       = setInitialVector iv (setAuthentication auth (setFullName s c)).
Proof.
  intros c a a' o o' s iv iv' auth auth'.
  repeat match goal with |- _ /\ _ => split end;
    try (rewrite ?setAlgorithmName_stores, ?setOperationCode_stores; reflexivity).
  all: unfold setFullName;
    destruct (Nat.eqb (List.length (split "/" s)) 2);
    rewrite ?setOperationCode_stores, ?setAlgorithmName_stores; reflexivity.
Qed.

(** ** What the hex setters store *)

Lemma digitValues_cons :
  forall ch rest,
    digitValues (ch :: rest)
    = match hexDigit ch with
      | Some v => v :: digitValues rest
      | None => digitValues rest
      end.
Proof.
  intros ch rest. unfold digitValues. simpl flat_map.
  destruct (hexDigit ch); reflexivity.
Qed.

Lemma digitValues_length : forall bs, List.length (digitValues bs) = countHex bs.
Proof.
  induction bs as [|ch rest IH]; [reflexivity|].
  rewrite digitValues_cons, countHex_cons.
  destruct (hexDigit ch); simpl; rewrite IH; reflexivity.
Qed.

Lemma digitValues_bound : forall bs, Forall (fun v => (v < 16)%N) (digitValues bs).
Proof.
  induction bs as [|ch rest IH]; [constructor|].
  rewrite digitValues_cons.
  destruct (hexDigit ch) as [v|] eqn:E; [|exact IH].
  constructor; [exact (hexDigit_bound ch v E) | exact IH].
Qed.

(** One more character in front: the loop meets it last, with the bytes
    of the rest written and the half-byte flag as the rest left it. *)
Lemma fromHex_cons :
  forall ch rest,
    fromHex (ch :: rest)
    = fromHex_loop [ch] (Nat.even (countHex rest)) (fromHex rest).
Proof.
  intros ch rest. unfold fromHex. simpl rev.
  rewrite fromHex_loop_app_chars by discriminate.
  rewrite countHex_rev.
  destruct (Nat.even (countHex rest)); reflexivity.
Qed.

Lemma fromHex_decodes_digits :
  forall bs, fromHex bs = decodeDigits (digitValues bs).
Proof.
  induction bs as [|ch rest IH]; [reflexivity|].
  rewrite fromHex_cons, digitValues_cons.
  pose proof (digitValues_length rest) as L.
  pose proof (digitValues_bound rest) as Bd.
  destruct (hexDigit ch) as [v|] eqn:E; simpl fromHex_loop; rewrite E.
  - unfold decodeDigits in *. simpl List.length.
    rewrite Nat.even_succ, <- Nat.negb_even, L in *.
    destruct (Nat.even (countHex rest)) eqn:Ev; simpl negb; cbv iota.
    + rewrite IH. reflexivity.
    + destruct (digitValues rest) as [|d ds]; [simpl in L; rewrite <- L in Ev; discriminate Ev|].
      rewrite IH.
      apply Forall_inv in Bd.
      rewrite (nibbles_byte v d (hexDigit_bound ch v E) Bd). reflexivity.
  - exact IH.
Qed.

(** C9, amended: the hex-string variants of [setInitialVector] and
    [setAuthentication] are total (no failure of any kind) and store what
    [fromHex] gives: characters that are no hex digits are skipped and the
    values of the digits are taken two to a byte from the right, the first
    digit of a pair as the high half, and of an odd number of digits the
    first one as a byte of its own; so [d] digits give [(d + 1) / 2]
    bytes, and the stored field is empty exactly when the string holds no
    hex digit. *)
Theorem hex_setters_skip_invalid_characters :
  forall (hex : QString) (c : Cipher),
    initialVector (setInitialVectorHex hex c) = fromHex (toLatin1 hex)
    /\ authentication (setAuthenticationHex hex c) = fromHex (toLatin1 hex)
    /\ initialVector (setInitialVectorHex hex c)
       = decodeDigits (digitValues (toLatin1 hex))
    /\ authentication (setAuthenticationHex hex c)
       = decodeDigits (digitValues (toLatin1 hex))
    /\ List.length (digitValues (toLatin1 hex)) = countHex (toLatin1 hex)
    /\ List.length (initialVector (setInitialVectorHex hex c))
       = (countHex (toLatin1 hex) + 1) / 2
    /\ List.length (authentication (setAuthenticationHex hex c))
       = (countHex (toLatin1 hex) + 1) / 2
    /\ (initialVector (setInitialVectorHex hex c) = [] <-> countHex (toLatin1 hex) = 0)
    /\ (authentication (setAuthenticationHex hex c) = [] <-> countHex (toLatin1 hex) = 0).
Proof.
  intros hex c.
  change (initialVector (setInitialVectorHex hex c)) with (fromHex (toLatin1 hex)).
  change (authentication (setAuthenticationHex hex c)) with (fromHex (toLatin1 hex)).
  split; [reflexivity|]. split; [reflexivity|].
  split; [apply fromHex_decodes_digits|].
  split; [apply fromHex_decodes_digits|].
  split; [apply digitValues_length|].
  split; [apply fromHex_length|].
  split; [apply fromHex_length|].
  split; apply fromHex_empty_iff.
Qed.

(** The decoding by hand, on strings with stray characters and an odd
    number of digits. *)
Example decodeDigits_examples :
  digitValues (toLatin1 "a-b c") = [10; 11; 12]%N
  /\ decodeDigits [10; 11; 12]%N = [x0a; xbc]
  /\ decodeDigits [1; 2; 3; 4]%N = [x12; x34]
  /\ decodeDigits [] = [].
Proof. repeat split. Qed.
